(** * cmdline: command-line option and argument parsing

    A shallow embedding of the Go package [cmdline] (file [cmdline.go]) and
    the proofs of its specified properties.

    Go strings are byte sequences: they are modelled as [string] (a list of
    8-bit [ascii] characters).  Go's [int] is the 64-bit signed integer: it
    is modelled as [Z], with the wrap-around of arithmetic written out.  The
    functions of the Go standard library that the package calls are modelled
    in the modules [utf8], [strings], [strconv], [path] and [fmt]. *)

From Stdlib Require Import String Ascii List ZArith Lia Bool DecimalString.
Import ListNotations.

#[local] Open Scope string_scope.
#[local] Open Scope Z_scope.

(** The line feed, written ["\n"] in the Go source. *)
Definition LF : ascii := Ascii.ascii_of_nat 10.
Definition nl : string := String LF "".

(** ** Go's [int] *)

Definition MinInt : Z := - 2 ^ 63.
Definition MaxInt : Z := 2 ^ 63 - 1.

(** Two's-complement wrap-around of a 64-bit signed result. *)
Definition wrap_int (z : Z) : Z := (z + 2 ^ 63) mod 2 ^ 64 - 2 ^ 63.

(** [i++] on an [int]. *)
Definition int_incr (i : Z) : Z := wrap_int (i + 1).

(** ** Package [unicode/utf8] *)

Module utf8.

Definition byte_in (lo hi : nat) (c : ascii) : bool :=
  let n := nat_of_ascii c in (Nat.leb lo n && Nat.leb n hi)%bool.

(** A continuation byte, [0x80..0xBF]. *)
Definition cont (c : ascii) : bool := byte_in 128 191 c.

(** [second c0 c1]: [c1] is an acceptable second byte after the leading
    byte [c0] of a multi-byte sequence (the accept ranges of the decoder). *)
Definition second (c0 c1 : ascii) : bool :=
  let n := nat_of_ascii c0 in
  if Nat.eqb n 224 then byte_in 160 191 c1
  else if Nat.eqb n 237 then byte_in 128 159 c1
  else if Nat.eqb n 240 then byte_in 144 191 c1
  else if Nat.eqb n 244 then byte_in 128 143 c1
  else cont c1.

(** [RuneCountInString s], which is [len([]rune(s))]: the number of runes
    of [s]; a byte that starts no well-formed sequence counts as one rune
    of width one. *)
Fixpoint RuneCountInString (s : string) : nat :=
  match s with
  | "" => 0%nat
  | String c0 t =>
      if byte_in 194 223 c0 then
        match t with
        | String c1 t1 =>
            if cont c1 then S (RuneCountInString t1)
            else S (RuneCountInString t)
        | _ => S (RuneCountInString t)
        end
      else if byte_in 224 239 c0 then
        match t with
        | String c1 (String c2 t2) =>
            if (second c0 c1 && cont c2)%bool then S (RuneCountInString t2)
            else S (RuneCountInString t)
        | _ => S (RuneCountInString t)
        end
      else if byte_in 240 244 c0 then
        match t with
        | String c1 (String c2 (String c3 t3)) =>
            if (second c0 c1 && cont c2 && cont c3)%bool
            then S (RuneCountInString t3)
            else S (RuneCountInString t)
        | _ => S (RuneCountInString t)
        end
      else S (RuneCountInString t)
  end.

End utf8.

(** ** Package [strings] *)

Module strings.

(** [HasPrefix s prefix]. *)
Fixpoint HasPrefix (s prefix : string) {struct prefix} : bool :=
  match prefix, s with
  | "", _ => true
  | String a p', String b s' => (Ascii.eqb a b && HasPrefix s' p')%bool
  | String _ _, "" => false
  end.

(** [CutPrefix s prefix] returns [after, found]. *)
Fixpoint CutPrefix (s prefix : string) {struct prefix}
  : string * bool :=
  match prefix, s with
  | "", _ => (s, true)
  | String a p', String b s' =>
      if Ascii.eqb a b
      then (if snd (CutPrefix s' p') then (fst (CutPrefix s' p'), true)
            else (String b s', false))
      else (String b s', false)
  | String _ _, "" => ("", false)
  end.

(** Membership of a byte in a cutset. *)
Fixpoint inCutset (c : ascii) (cutset : string) : bool :=
  match cutset with
  | "" => false
  | String d r => (Ascii.eqb c d || inCutset c r)%bool
  end.

(** [TrimLeft s cutset], for a cutset of ASCII characters (a byte below
    [0x80] never occurs inside a multi-byte sequence, so that removing
    runes and removing bytes agree). *)
Fixpoint TrimLeft (s cutset : string) : string :=
  match s with
  | "" => ""
  | String c t => if inCutset c cutset then TrimLeft t cutset else s
  end.

(** [Repeat s count]. *)
Fixpoint Repeat (s : string) (count : nat) : string :=
  match count with
  | O => ""
  | S n => s ++ Repeat s n
  end.

Definition consHead (c : ascii) (l : list string) : list string :=
  match l with
  | h :: r => String c h :: r
  | [] => [String c ""]
  end.

(** The splitting loop of [Split] and [SplitN], for a non-empty separator.
    [n] is the number of cuts still allowed; [skip] counts the bytes of a
    separator that has just matched and are still to be passed over. *)
Fixpoint genSplit (sep : string) (n skip : nat) (s : string) {struct s}
  : list string :=
  match s with
  | "" => [""]
  | String c t =>
      match skip with
      | S k => genSplit sep n k t
      | O =>
          match n with
          | O => [s]
          | S n' =>
              if HasPrefix s sep
              then "" :: genSplit sep n' (Nat.pred (String.length sep)) t
              else consHead c (genSplit sep n 0 t)
          end
      end
  end.

(** [SplitN s sep n] for a non-empty [sep]: at most [n] substrings when
    [n > 0], [nil] when [n = 0], all substrings when [n < 0]. *)
Definition SplitN (s sep : string) (n : Z) : list string :=
  if n =? 0 then []
  else if n <? 0 then genSplit sep (String.length s) 0 s
  else genSplit sep (Nat.pred (Z.to_nat n)) 0 s.

(** [Split s sep] is [SplitN s sep (-1)]. *)
Definition Split (s sep : string) : list string := SplitN s sep (-1).

(** [Join elems sep]. *)
Fixpoint Join (elems : list string) (sep : string) : string :=
  match elems with
  | [] => ""
  | [e] => e
  | e :: r => e ++ sep ++ Join r sep
  end.

(** The white space of [unicode.IsSpace] in UTF-8: the six ASCII
    characters, U+0085, U+00A0, U+1680, U+2000..U+200A, U+2028, U+2029,
    U+202F, U+205F and U+3000. *)
Definition asciiSpace (c : ascii) : bool :=
  let n := nat_of_ascii c in
  (Nat.eqb n 9 || Nat.eqb n 10 || Nat.eqb n 11 || Nat.eqb n 12
   || Nat.eqb n 13 || Nat.eqb n 32)%bool.

Definition space2 (c0 c1 : ascii) : bool :=
  (Nat.eqb (nat_of_ascii c0) 194
   && (Nat.eqb (nat_of_ascii c1) 133 || Nat.eqb (nat_of_ascii c1) 160))%bool.

Definition space3 (c0 c1 c2 : ascii) : bool :=
  let n0 := nat_of_ascii c0 in
  let n1 := nat_of_ascii c1 in
  let n2 := nat_of_ascii c2 in
  ((Nat.eqb n0 225 && Nat.eqb n1 154 && Nat.eqb n2 128)
   || (Nat.eqb n0 226 && Nat.eqb n1 128
       && ((Nat.leb 128 n2 && Nat.leb n2 138)
           || Nat.eqb n2 168 || Nat.eqb n2 169 || Nat.eqb n2 175))
   || (Nat.eqb n0 226 && Nat.eqb n1 129 && Nat.eqb n2 159)
   || (Nat.eqb n0 227 && Nat.eqb n1 128 && Nat.eqb n2 128))%bool.

(** Removal of the leading white space. *)
Fixpoint trimLeftSpace (s : string) : string :=
  match s with
  | "" => ""
  | String c0 t =>
      if asciiSpace c0 then trimLeftSpace t
      else
        match t with
        | String c1 t1 =>
            if space2 c0 c1 then trimLeftSpace t1
            else
              match t1 with
              | String c2 t2 =>
                  if space3 c0 c1 c2 then trimLeftSpace t2 else s
              | "" => s
              end
        | "" => s
        end
  end.

Fixpoint rev (s : string) : string :=
  match s with
  | "" => ""
  | String c t => rev t ++ String c ""
  end.

(** Removal of the trailing white space: the last rune is read backwards,
    so the scan works on the reversed string, with the byte patterns
    mirrored. *)
Fixpoint trimLeftSpaceRev (s : string) : string :=
  match s with
  | "" => ""
  | String c0 t =>
      if asciiSpace c0 then trimLeftSpaceRev t
      else
        match t with
        | String c1 t1 =>
            if space2 c1 c0 then trimLeftSpaceRev t1
            else
              match t1 with
              | String c2 t2 =>
                  if space3 c2 c1 c0 then trimLeftSpaceRev t2 else s
              | "" => s
              end
        | "" => s
        end
  end.

(** [TrimSpace s]. *)
Definition TrimSpace (s : string) : string :=
  rev (trimLeftSpaceRev (rev (trimLeftSpace s))).

End strings.

(** ** Package [strconv] *)

Module strconv.

Inductive NumError := ErrSyntax | ErrRange.

Definition isDigit (c : ascii) : bool := utf8.byte_in 48 57 c.
Definition digit (c : ascii) : Z := Z.of_nat (nat_of_ascii c) - 48.

Definition maxUint64 : Z := 2 ^ 64 - 1.

(** The digit loop of [ParseUint(s, 10, 64)], with [n] the value read so
    far.  The loop returns at the first byte that is no digit, and at the
    first digit that takes the value out of range. *)
Fixpoint parseUintLoop (s : string) (n : Z) : Z * option NumError :=
  match s with
  | "" => (n, None)
  | String c t =>
      if negb (isDigit c) then (0, Some ErrSyntax)
      else if n >=? maxUint64 / 10 + 1 then (maxUint64, Some ErrRange)
      else
        let n1 := n * 10 + digit c in
        if n1 >? maxUint64 then (maxUint64, Some ErrRange)
        else parseUintLoop t n1
  end.

(** [ParseUint(s, 10, 64)]. *)
Definition ParseUint (s : string) : Z * option NumError :=
  match s with
  | "" => (0, Some ErrSyntax)
  | _ => parseUintLoop s 0
  end.

(** [ParseInt(s, 10, 64)]: the value and the error ([None] is [nil]). *)
Definition ParseInt (s : string) : Z * option NumError :=
  match s with
  | "" => (0, Some ErrSyntax)
  | String c t =>
      let neg := Ascii.eqb c "-" in
      let s' := if (Ascii.eqb c "+" || Ascii.eqb c "-")%bool then t else s in
      let '(un, err) := ParseUint s' in
      match err with
      | Some ErrSyntax => (0, err)
      | _ =>
          let cutoff := 2 ^ 63 in
          if (negb neg && (un >=? cutoff))%bool
          then (cutoff - 1, Some ErrRange)
          else if (neg && (un >? cutoff))%bool
          then (- cutoff, Some ErrRange)
          else (if neg then - un else un, None)
      end
  end.

End strconv.

(** ** Package [path] *)

Module path.

(** The part of [s] after the last occurrence of [c], if [c] occurs. *)
Fixpoint afterLast (c : ascii) (s : string) : option string :=
  match s with
  | "" => None
  | String a t =>
      match afterLast c t with
      | Some r => Some r
      | None => if Ascii.eqb a c then Some t else None
      end
  end.

(** [Base path]: the last element of the path. *)
Definition Base (path : string) : string :=
  match path with
  | "" => "."
  | _ =>
      let path := strings.rev (strings.TrimLeft (strings.rev path) "/") in
      let path := match afterLast "/" path with
                  | Some r => r
                  | None => path
                  end in
      match path with
      | "" => "/"
      | _ => path
      end
  end.

End path.

(** ** Package [fmt] *)

Module fmt.

(** The operands the package and its callers pass for [...any]: strings
    and ints. *)
Inductive any :=
| Str (s : string)
| Int (i : Z).

(** [%d] of an [int]. *)
Definition itoa (i : Z) : string := NilZero.string_of_int (Z.to_int i).

(** An operand with its type, as the bad-verb and extra-operand forms
    print it. *)
Definition typed (a : any) : string :=
  match a with
  | Str s => "string=" ++ s
  | Int i => "int=" ++ itoa i
  end.

(** One verb applied to one operand. *)
Definition verb (v : ascii) (a : any) : string :=
  match a with
  | Str s =>
      if (Ascii.eqb v "s" || Ascii.eqb v "v")%bool then s
      else "%!" ++ String v "(" ++ typed a ++ ")"
  | Int i =>
      if (Ascii.eqb v "d" || Ascii.eqb v "v")%bool then itoa i
      else "%!" ++ String v "(" ++ typed a ++ ")"
  end.

(** Operands left over when the format is exhausted. *)
Definition extra (args : list any) : string :=
  match args with
  | [] => ""
  | _ => "%!(EXTRA " ++ strings.Join (map typed args) ", " ++ ")"
  end.

(** [Sprintf format args], for the plain verbs [%s], [%d], [%v] and [%%]
    (the package itself uses [%s] and [%d] only); flags, widths and the
    other verbs are outside this model. *)
Fixpoint Sprintf (format : string) (args : list any) : string :=
  match format with
  | "" => extra args
  | String c rest =>
      if Ascii.eqb c "%" then
        match rest with
        | "" => "%!(NOVERB)" ++ extra args
        | String v rest' =>
            if Ascii.eqb v "%" then String "%" (Sprintf rest' args)
            else
              match args with
              | [] => "%!" ++ String v "(MISSING)" ++ Sprintf rest' []
              | a :: args' => verb v a ++ Sprintf rest' args'
              end
        end
      else String c (Sprintf rest args)
  end.

(** [Errorf format args]: an error value, represented by its message. *)
Definition Errorf (format : string) (args : list any) : string :=
  Sprintf format args.

End fmt.

(** * Package [cmdline] *)

Import fmt.

(** ** The parser state: [type Parser struct] *)

Record Parser := mkParser {
  rest : list string;
  argIdx : Z;
  onlyArgs : bool;
  opt : string;
  strVal : string;
  intVal : Z;
  grabbed : bool;
  err : option string   (* [None] is [nil]; an error is its message *)
}.

Definition set_rest (v : list string) (p : Parser) : Parser :=
  mkParser v (argIdx p) (onlyArgs p) (opt p) (strVal p) (intVal p) (grabbed p) (err p).
Definition set_argIdx (v : Z) (p : Parser) : Parser :=
  mkParser (rest p) v (onlyArgs p) (opt p) (strVal p) (intVal p) (grabbed p) (err p).
Definition set_onlyArgs (v : bool) (p : Parser) : Parser :=
  mkParser (rest p) (argIdx p) v (opt p) (strVal p) (intVal p) (grabbed p) (err p).
Definition set_opt (v : string) (p : Parser) : Parser :=
  mkParser (rest p) (argIdx p) (onlyArgs p) v (strVal p) (intVal p) (grabbed p) (err p).
Definition set_strVal (v : string) (p : Parser) : Parser :=
  mkParser (rest p) (argIdx p) (onlyArgs p) (opt p) v (intVal p) (grabbed p) (err p).
Definition set_intVal (v : Z) (p : Parser) : Parser :=
  mkParser (rest p) (argIdx p) (onlyArgs p) (opt p) (strVal p) v (grabbed p) (err p).
Definition set_grabbed (v : bool) (p : Parser) : Parser :=
  mkParser (rest p) (argIdx p) (onlyArgs p) (opt p) (strVal p) (intVal p) v (err p).
Definition set_err (v : option string) (p : Parser) : Parser :=
  mkParser (rest p) (argIdx p) (onlyArgs p) (opt p) (strVal p) (intVal p) (grabbed p) v.

(** The parser [&Parser{rest: args}]. *)
Definition newParser (args : list string) : Parser :=
  mkParser args 0 false "" "" 0 false None.

(** [parseArg] classifies one token.  It does not use its receiver. *)
Definition parseArg (arg : string) : string * string :=
  if strings.HasPrefix arg "-" then
    let parts := strings.SplitN (strings.TrimLeft arg "-") "=" 2 in
    let opt := nth 0 parts "" in
    let opt := if String.eqb opt "" then "???" else opt in
    let strVal := if (1 <? Z.of_nat (List.length parts)) then nth 1 parts "" else "" in
    (opt, strVal)
  else ("", arg).

(** [DontFormat], the default line formatter. *)
Definition DontFormat (s : string) : string := s.

(** The loop of [FormatHelp] that drops the empty lines at the end. *)
Fixpoint dropEmptyTail (n_lines : nat) (lines : list string) : list string :=
  match n_lines with
  | O => lines
  | S n =>
      if negb (String.eqb (nth n lines "") "") then lines
      else dropEmptyTail n (firstn n lines)
  end.

Definition FormatHelp (help : string) : string :=
  let lines := strings.Split help nl in
  let lines :=
    map (fun line =>
           let line := strings.TrimSpace line in
           let '(after, found) := strings.CutPrefix line "|" in
           if found then " " ++ after else line) lines in
  let lines := dropEmptyTail (List.length lines) lines in
  strings.Join lines nl.

(** ** The process: package variables, output streams, termination *)

Inductive File := Stdout | Stderr.

Section Process.

(** [U] is the state of the caller: the variables that the callback and
    the handlers of the caller close over. *)
Context {U : Type}.

(** The package variables [Program], [Help], [FormatWarningFunc] and
    [FormatInfoFunc], [os.Args], what has been written to [os.Stdout] and
    [os.Stderr], and the state of the caller. *)
Record World := mkWorld {
  Program : string;
  Help : string;
  FormatWarningFunc : string -> string;
  FormatInfoFunc : string -> string;
  osArgs : list string;
  stdout : string;
  stderr : string;
  user : U
}.

Definition set_Program (v : string) (w : World) : World :=
  mkWorld v (Help w) (FormatWarningFunc w) (FormatInfoFunc w) (osArgs w)
          (stdout w) (stderr w) (user w).
Definition set_stdout (v : string) (w : World) : World :=
  mkWorld (Program w) (Help w) (FormatWarningFunc w) (FormatInfoFunc w)
          (osArgs w) v (stderr w) (user w).
Definition set_stderr (v : string) (w : World) : World :=
  mkWorld (Program w) (Help w) (FormatWarningFunc w) (FormatInfoFunc w)
          (osArgs w) (stdout w) v (user w).
Definition set_user (v : U) (w : World) : World :=
  mkWorld (Program w) (Help w) (FormatWarningFunc w) (FormatInfoFunc w)
          (osArgs w) (stdout w) (stderr w) v.

(** A call either returns, or the process has ended in [os.Exit]. *)
Inductive Res (A : Type) : Type :=
| Ok (a : A) (w : World)
| Exited (code : Z) (w : World).
Arguments Ok {A} a w.
Arguments Exited {A} code w.

(** Code that acts on the process. *)
Definition M (A : Type) : Type := World -> Res A.

(** Code that acts on the process and on the parser it has a pointer to. *)
Definition PM (A : Type) : Type := Parser -> M (A * Parser).

Definition retM {A} (a : A) : M A := fun w => Ok a w.
Definition bindM {A B} (m : M A) (f : A -> M B) : M B :=
  fun w => match m w with
           | Ok a w' => f a w'
           | Exited c w' => Exited c w'
           end.

Definition ret {A} (a : A) : PM A := fun p w => Ok (a, p) w.
Definition bind {A B} (m : PM A) (f : A -> PM B) : PM B :=
  fun p w => match m p w with
             | Ok (a, p') w' => f a p' w'
             | Exited c w' => Exited c w'
             end.

(** Reading the parser, assigning to one of its fields, reading the
    package variables, and running process code. *)
Definition get : PM Parser := fun p w => Ok (p, p) w.
Definition modify (f : Parser -> Parser) : PM unit := fun p w => Ok (tt, f p) w.
Definition getWorld : PM World := fun p w => Ok (w, p) w.
Definition lift {A} (m : M A) : PM A :=
  fun p w => match m w with
             | Ok a w' => Ok (a, p) w'
             | Exited c w' => Exited c w'
             end.

(** [os.Exit(code)]. *)
Definition osExit {A} (code : Z) : M A := fun w => Exited code w.

(** [fmt.Fprintln(fd, s)] and [fmt.Println(s)]. *)
Definition Fprintln (fd : File) (s : string) : M unit :=
  fun w => match fd with
           | Stdout => Ok tt (set_stdout (stdout w ++ s ++ nl) w)
           | Stderr => Ok tt (set_stderr (stderr w ++ s ++ nl) w)
           end.
Definition Println (s : string) : M unit := Fprintln Stdout s.

(** The [for ... range] loop of [ProgramMessage]. *)
Fixpoint printIndented (fd : File) (formatLineFn : string -> string)
         (indent : string) (lines : list string) : M unit :=
  match lines with
  | [] => retM tt
  | line :: r =>
      bindM (Fprintln fd (formatLineFn (indent ++ line)))
            (fun _ => printIndented fd formatLineFn indent r)
  end.

Definition ProgramMessage (fd : File) (formatLineFn : string -> string)
           (format : string) (args : list any) : M unit :=
  fun w =>
    let msg := Sprintf format args in
    let lines := strings.Split msg nl in
    bindM (Fprintln fd (formatLineFn
             (Sprintf ("%s: %s" ++ nl) [Str (Program w); Str (nth 0 lines "")])))
          (fun _ =>
             if (1 <? Z.of_nat (List.length lines)) then
               let indentLen := (utf8.RuneCountInString (Program w) + 2)%nat in
               let indent := strings.Repeat " " indentLen in
               printIndented fd formatLineFn indent (tl lines)
             else retM tt) w.

Definition Warn (format : string) (args : list any) : M unit :=
  fun w => ProgramMessage Stderr (FormatWarningFunc w) format args w.

Definition Info (format : string) (args : list any) : M unit :=
  fun w => ProgramMessage Stdout (FormatInfoFunc w) format args w.

Definition RuntimeError (format : string) (args : list any) : M unit :=
  bindM (Warn format args) (fun _ => osExit 1).

Definition SyntaxError (format : string) (args : list any) : M unit :=
  let msg := Sprintf format args in
  bindM (Warn ("%s" ++ nl ++ nl ++ "Verwenden Sie --help für weitere Hilfe!")
              [Str msg])
        (fun _ => osExit 1).

Definition ReturnError (format : string) (args : list any) : M unit :=
  retM tt.

Definition PrintHelp (help : string) : M unit :=
  bindM (Println (FormatHelp help)) (fun _ => osExit 0).

(** The package variables [ErrorFunc] and [HelpFunc].  Their type mentions
    the process, so they are kept apart from [World]; they stay the same
    during a parse. *)
Record Handlers := mkHandlers {
  ErrorFunc : string -> list any -> M unit;
  HelpFunc : string -> M unit
}.

(** The initial values of the two variables. *)
Definition defaultHandlers : Handlers := mkHandlers SyntaxError PrintHelp.

End Process.

Arguments World : clear implicits.
Arguments Res : clear implicits.
Arguments M : clear implicits.
Arguments PM : clear implicits.
Arguments Handlers : clear implicits.
Arguments Ok {U A} a w.
Arguments Exited {U A} code w.

Declare Scope pm_scope.
Delimit Scope pm_scope with pm.
Notation "x <- c1 ;; c2" := (bind c1 (fun x => c2))
  (at level 61, c1 at next level, right associativity) : pm_scope.
Notation "c1 ;; c2" := (bind c1 (fun _ => c2))
  (at level 61, right associativity) : pm_scope.

(** ** The methods of [*Parser] *)

Section Methods.

Context {U : Type}.
Variable H : Handlers U.

#[local] Open Scope pm_scope.

Definition popNextArg : PM U string :=
  p <- get ;;
  match rest p with
  | [] => ret ""
  | arg :: r => modify (set_rest r) ;; ret arg
  end.

(** [Errorf] hands the error to [ErrorFunc], records it and returns it. *)
Definition Errorf (format : string) (args : list any) : PM U string :=
  lift (ErrorFunc H format args) ;;
  modify (set_err (Some (fmt.Errorf format args))) ;;
  ret (fmt.Errorf format args).

Definition IsOpt (long short : string) : PM U bool :=
  p <- get ;;
  if (negb (opt p =? long)%string && negb (opt p =? short)%string)%bool
  then ret false
  else
    modify (set_opt long) ;;
    p <- get ;;
    if negb (strVal p =? "")%string then
      Errorf "Option erlaubt kein Options-Argument: --%s" [Str (opt p)] ;;
      ret false
    else
      modify (set_grabbed true) ;;
      ret true.

Definition IsStrOpt (long short : string) : PM U bool :=
  p <- get ;;
  if (negb (opt p =? long)%string && negb (opt p =? short)%string)%bool
  then ret false
  else
    modify (set_opt long) ;;
    p <- get ;;
    if negb (strVal p =? "")%string then
      modify (set_grabbed true) ;;
      ret true
    else
      found <-
        (if (0 <? Z.of_nat (List.length (rest p))) then
           arg <- popNextArg ;;
           let '(opt, strVal) := parseArg arg in
           if ((opt =? "")%string && negb (strVal =? "")%string)%bool then
             modify (set_strVal strVal) ;;
             modify (set_grabbed true) ;;
             ret true
           else ret false
         else ret false) ;;
      if found : bool then ret true
      else
        p <- get ;;
        Errorf "Option erwartet ein Options-Argument: --%s" [Str (opt p)] ;;
        ret false.

Definition StrVal : PM U string :=
  p <- get ;; ret (strVal p).

Definition IsIntOpt (long short : string) (min max : Z) : PM U bool :=
  b <- IsStrOpt long short ;;
  if negb b then ret false
  else
    p <- get ;;
    let '(parsedVal, err) := strconv.ParseInt (strVal p) in
    let intVal := parsedVal in
    match err with
    | Some _ =>
        Errorf "Ungültige Zahl: %s (Option --%s)"
               [Str (strVal p); Str (opt p)] ;;
        ret false
    | None =>
        if intVal <? min then
          Errorf "Zahl muß >= %d sein: %d (Option --%s)"
                 [Int min; Int intVal; Str (opt p)] ;;
          ret false
        else if intVal >? max then
          Errorf "Zahl muß <= %d sein: %d (Option --%s)"
                 [Int max; Int intVal; Str (opt p)] ;;
          ret false
        else
          modify (set_intVal intVal) ;;
          ret true
    end.

Definition IntVal : PM U Z :=
  p <- get ;; ret (intVal p).

Definition IsArg : PM U bool :=
  p <- get ;;
  if ((opt p =? "")%string && negb (strVal p =? "")%string)%bool then ret true
  else ret false.

Definition ArgIdx : PM U Z :=
  p <- get ;; ret (argIdx p).

Definition IsArgN (idx : Z) : PM U bool :=
  p <- get ;;
  if negb (argIdx p =? idx) then ret false
  else IsArg.

Definition Arg : PM U string :=
  p <- get ;;
  (if negb (grabbed p) then
     modify (set_grabbed true) ;;
     p <- get ;;
     modify (set_argIdx (int_incr (argIdx p)))
   else ret tt) ;;
  p <- get ;;
  ret (strVal p).

(** ** The callback

    The callback [fn], a function of the parser pointer, belongs to the
    caller.  The fields of [Parser] are not exported, so that the callback
    acts on the parser through the exported methods only; between the
    calls it runs code of its own on the process.  [Prog] is the tree of these calls, each with
    the continuation that receives its result. *)
Inductive Prog : Type :=
| Done
| CallIsOpt (long short : string) (k : bool -> Prog)
| CallIsStrOpt (long short : string) (k : bool -> Prog)
| CallStrVal (k : string -> Prog)
| CallIsIntOpt (long short : string) (min max : Z) (k : bool -> Prog)
| CallIntVal (k : Z -> Prog)
| CallIsArg (k : bool -> Prog)
| CallArgIdx (k : Z -> Prog)
| CallIsArgN (idx : Z) (k : bool -> Prog)
| CallArg (k : string -> Prog)
| CallErrorf (format : string) (args : list any) (k : string -> Prog)
| Own (X : Type) (m : M U X) (k : X -> Prog).

(** Running the callback on the parser. *)
Fixpoint run (c : Prog) : PM U unit :=
  match c with
  | Done => ret tt
  | CallIsOpt long short k => b <- IsOpt long short ;; run (k b)
  | CallIsStrOpt long short k => b <- IsStrOpt long short ;; run (k b)
  | CallStrVal k => v <- StrVal ;; run (k v)
  | CallIsIntOpt long short min max k =>
      b <- IsIntOpt long short min max ;; run (k b)
  | CallIntVal k => v <- IntVal ;; run (k v)
  | CallIsArg k => b <- IsArg ;; run (k b)
  | CallArgIdx k => i <- ArgIdx ;; run (k i)
  | CallIsArgN idx k => b <- IsArgN idx ;; run (k b)
  | CallArg k => v <- Arg ;; run (k v)
  | CallErrorf format args k => e <- Errorf format args ;; run (k e)
  | Own X m k => x <- lift m ;; run (k x)
  end.

(** An assignment to the variables of the caller. *)
Definition Assign (f : U -> U) (k : Prog) : Prog :=
  Own unit (fun w => Ok tt (set_user (f (user w)) w)) (fun _ => k).

(** ** [ParseArgs] *)

(** How one iteration of the loop ends: it goes on to the next iteration,
    or [ParseArgs] returns. *)
Inductive Flow :=
| Continue
| Return (e : option string).

(** The first part of the loop body, up to the call of the callback: the
    next token is taken and classified. *)
Definition classify : PM U Flow :=
  arg <- popNextArg ;;
  p <- get ;;
  if onlyArgs p then
    modify (set_opt "") ;;
    modify (set_strVal arg) ;;
    ret Continue
  else if (arg =? "--help")%string then
    w <- getWorld ;;
    lift (HelpFunc H (Help w)) ;;
    ret (Return None)
  else
    r <- (if (arg =? "--")%string then
            p <- get ;;
            if (Z.of_nat (List.length (rest p)) =? 0) then ret (inl (err p))
            else
              modify (set_onlyArgs true) ;;
              arg <- popNextArg ;;
              ret (inr arg)
          else ret (inr arg)) ;;
    match r with
    | inl e => ret (Return e)
    | inr arg =>
        let '(o, v) := parseArg arg in
        modify (set_opt o) ;;
        modify (set_strVal v) ;;
        ret Continue
    end.

(** The second part of the loop body: what follows the callback. *)
Definition check : PM U Flow :=
  p <- get ;;
  match err p with
  | Some e => ret (Return (Some e))
  | None =>
      if negb (grabbed p) then
        if negb (opt p =? "")%string then
          e <- Errorf "Unbekannte Option: --%s" [Str (opt p)] ;;
          ret (Return (Some e))
        else
          e <- Errorf "Zu viele Argumente!" [] ;;
          ret (Return (Some e))
      else ret Continue
  end.

(** The loop body. *)
Definition iteration (fn : Prog) : PM U Flow :=
  f <- classify ;;
  match f with
  | Return e => ret (Return e)
  | Continue =>
      modify (set_grabbed false) ;;
      run fn ;;
      check
  end.

(** The loop [for len(parser.rest) > 0].  Every iteration takes a token,
    so that the loop ends; [fuel] bounds the number of iterations, and
    [None] says that the bound was too small.  The result is the returned
    error, together with the parser as [ParseArgs] leaves it. *)
Fixpoint parseLoop (fuel : nat) (fn : Prog) (p : Parser) (w : World U)
  : option (Res U (option string * Parser)) :=
  match rest p with
  | [] => Some (Ok (None, p) w)
  | _ :: _ =>
      match fuel with
      | O => None
      | S n =>
          match iteration fn p w with
          | Ok (Continue, p') w' => parseLoop n fn p' w'
          | Ok (Return e, p') w' => Some (Ok (e, p') w')
          | Exited c w' => Some (Exited c w')
          end
      end
  end.

(** The start of [ParseArgs]: [Program] is set from the first argument if
    it is empty, and the first argument is dropped. *)
Definition parseInit (args : list string) (w : World U)
  : list string * World U :=
  match args with
  | a0 :: r =>
      (r, if (Program w =? "")%string then set_Program (path.Base a0) w else w)
  | [] => ([], w)
  end.

Definition ParseArgs (args : list string) (fn : Prog) (w : World U)
  : option (Res U (option string)) :=
  let '(args, w) := parseInit args w in
  match parseLoop (List.length args) fn (newParser args) w with
  | Some (Ok (e, _) w') => Some (Ok e w')
  | Some (Exited c w') => Some (Exited c w')
  | None => None
  end.

(** [Parse] parses [os.Args]. *)
Definition Parse (fn : Prog) (w : World U) : option (Res U (option string)) :=
  ParseArgs (osArgs w) fn w.

End Methods.

Arguments Done {U}.
Arguments Prog : clear implicits.

(** ** The callback and the handlers of the test suite *)

Module Tests.

(** [type Opts struct]. *)
Record Opts := mkOpts {
  verbose : bool;
  help : string;
  file : string;
  level : Z;
  cmd : string;
  args : list string
}.

Definition noOpts : Opts := mkOpts false "" "" 0 "" [].

Definition set_verbose (v : bool) (o : Opts) : Opts :=
  mkOpts v (help o) (file o) (level o) (cmd o) (args o).
Definition set_help (v : string) (o : Opts) : Opts :=
  mkOpts (verbose o) v (file o) (level o) (cmd o) (args o).
Definition set_file (v : string) (o : Opts) : Opts :=
  mkOpts (verbose o) (help o) v (level o) (cmd o) (args o).
Definition set_level (v : Z) (o : Opts) : Opts :=
  mkOpts (verbose o) (help o) (file o) v (cmd o) (args o).
Definition set_cmd (v : string) (o : Opts) : Opts :=
  mkOpts (verbose o) (help o) (file o) (level o) v (args o).
Definition add_arg (v : string) (o : Opts) : Opts :=
  mkOpts (verbose o) (help o) (file o) (level o) (cmd o) (args o ++ [v]).

(** The [switch] of the callback of [parse_cmdline]. *)
Definition fn : Prog Opts :=
  CallIsOpt "verbose" "v" (fun b =>
  if b then Assign (set_verbose true) Done else
  CallIsStrOpt "file" "f" (fun b =>
  if b then CallStrVal (fun v => Assign (set_file v) Done) else
  CallIsIntOpt "level" "l" 0 3 (fun b =>
  if b then CallIntVal (fun v => Assign (set_level v) Done) else
  CallIsArgN 0 (fun b =>
  if b then CallArg (fun v => Assign (set_cmd v) Done) else
  CallIsArg (fun b =>
  if negb b then Done else
  CallArgIdx (fun i =>
  if i <? 3 then CallArg (fun v => Assign (add_arg v) Done)
  else Done)))))).

(** [ErrorFunc = ReturnError], and the [HelpFunc] that stores the text. *)
Definition handlers : Handlers Opts :=
  mkHandlers ReturnError
             (fun help w => Ok tt (set_user (set_help help (user w)) w)).

Definition world (program : string) : World Opts :=
  mkWorld program "Verwendung: cmdline [OPTS]" DontFormat DontFormat []
          "" "" noOpts.

(** [parse_cmdline], on the fields of its argument: the options and the
    returned error. *)
Definition parse_cmdline (program : string) (fields : list string)
  : option (Opts * option string) :=
  match ParseArgs handlers fields fn (world program) with
  | Some (Ok e w) => Some (user w, e)
  | _ => None
  end.

End Tests.

(** * The vocabulary of the properties *)

(** [occurs c s]: the byte [c] occurs in [s]. *)
Fixpoint occurs (c : ascii) (s : string) : bool :=
  match s with
  | "" => false
  | String a t => (Ascii.eqb a c || occurs c t)%bool
  end.

(** [startsWith c s]: [s] is not empty and its first byte is [c]. *)
Definition startsWith (c : ascii) (s : string) : bool :=
  match s with
  | "" => false
  | String a _ => Ascii.eqb a c
  end.

(** [dashes n] is the string of [n] characters [-]. *)
Definition dashes (n : nat) : string := strings.Repeat "-" n.

(** The option name of a token whose text after the dashes and before the
    first [=] is [s]. *)
Definition optionName (s : string) : string :=
  if (s =? "")%string then "???" else s.

Definition TAB : string := String (Ascii.ascii_of_nat 9) "".

(** [allDigits s]: every byte of [s] is one of [0] to [9]. *)
Fixpoint allDigits (s : string) : bool :=
  match s with
  | "" => true
  | String c t => (strconv.isDigit c && allDigits t)%bool
  end.

(** The number that the digits [s] write in base 10 after the digits of
    [n]. *)
Fixpoint decimalValue (s : string) (n : Z) : Z :=
  match s with
  | "" => n
  | String c t => decimalValue t (n * 10 + strconv.digit c)
  end.

(** [decimalInt s v]: [s] is a base-10 integer, that is one or more digits
    after at most one sign, and its value [v] is an [int]. *)
Definition decimalInt (s : string) (v : Z) : Prop :=
  exists ds, ds <> "" /\ allDigits ds = true /\
    (((s = ds \/ s = "+" ++ ds) /\ v = decimalValue ds 0) \/
     (s = "-" ++ ds /\ v = - decimalValue ds 0)) /\
    MinInt <= v <= MaxInt.

(** The lines of [s]: the parts between its line feeds. *)
Fixpoint linesOf (s : string) : list string :=
  match s with
  | "" => [""]
  | String c t =>
      if Ascii.eqb c LF then "" :: linesOf t
      else strings.consHead c (linesOf t)
  end.

(** The last byte of a string. *)
Fixpoint lastByte (s : string) : option ascii :=
  match s with
  | "" => None
  | String c "" => Some c
  | String _ t => lastByte t
  end.

(** What [FormatHelp] makes of one line. *)
Definition formatLine (line : string) : string :=
  if snd (strings.CutPrefix (strings.TrimSpace line) "|")
  then " " ++ fst (strings.CutPrefix (strings.TrimSpace line) "|")
  else strings.TrimSpace line.

(** [allSpace s]: every byte of [s] is one of the six ASCII white space
    characters. *)
Fixpoint allSpace (s : string) : bool :=
  match s with
  | "" => true
  | String c t => (strings.asciiSpace c && allSpace t)%bool
  end.

(** The hint that [SyntaxError] adds to its message. *)
Definition helpHint : string := "Verwenden Sie --help für weitere Hilfe!".

Section Vocabulary.

Context {U : Type}.
Variable H : Handlers U.

(** A method that raises an error hands [format] and [args] to
    [ErrorFunc]; if the handler returns, the error is recorded in the
    parser and the method returns [false].  If the handler ends the
    process, so does the method. *)
Definition raises (format : string) (args : list any) (msg : string)
           (p : Parser) (w : World U) : Res U (bool * Parser) :=
  match ErrorFunc H format args w with
  | Ok _ w' => Ok (false, set_err (Some msg) p) w'
  | Exited c w' => Exited c w'
  end.

(** The loop returning with an error that it raises itself. *)
Definition stops (format : string) (args : list any) (msg : string)
           (p : Parser) (w : World U) : Res U (option string * Parser) :=
  match ErrorFunc H format args w with
  | Ok _ w' => Ok (Some msg, set_err (Some msg) p) w'
  | Exited c w' => Exited c w'
  end.

(** The loop returning after the call of [HelpFunc]. *)
Definition helps (text : string) (p : Parser) (w : World U)
  : Res U (option string * Parser) :=
  match HelpFunc H text w with
  | Ok _ w' => Ok (None, p) w'
  | Exited c w' => Exited c w'
  end.

(** What [ParseArgs] returns, from what the loop returns. *)
Definition returned (r : Res U (option string * Parser)) : Res U (option string) :=
  match r with
  | Ok (e, _) w => Ok e w
  | Exited c w => Exited c w
  end.

(** [evolves p p']: [onlyArgs] is the same, no token has been added, a
    claimed token stays claimed, a recorded error stays recorded, and a
    parser that has changed holds a claimed token or an error. *)
Definition evolves (p p' : Parser) : Prop :=
  onlyArgs p' = onlyArgs p /\
  (List.length (rest p') <= List.length (rest p))%nat /\
  (grabbed p = true -> grabbed p' = true) /\
  (err p <> None -> err p' <> None) /\
  (p' = p \/ grabbed p' = true \/ err p' <> None).

(** [reaches fn p w p' w']: the loop that starts an iteration with the
    parser [p] in the process [w] starts a later iteration (or the same
    one) with [p'] in [w']. *)
Inductive reaches (fn : Prog U) : Parser -> World U -> Parser -> World U -> Prop :=
| reaches_here p w : reaches fn p w p w
| reaches_next p w p1 w1 p2 w2 :
    rest p <> [] ->
    iteration H fn p w = Ok (Continue, p1) w1 ->
    reaches fn p1 w1 p2 w2 ->
    reaches fn p w p2 w2.

(** [parses args w fn p w']: the parse of [args], called in the process
    [w], starts an iteration of its loop with the parser [p] in the
    process [w']. *)
Definition parses (args : list string) (w : World U) (fn : Prog U)
           (p : Parser) (w' : World U) : Prop :=
  reaches fn (newParser (fst (parseInit args w))) (snd (parseInit args w)) p w'.

(** [claimsAfterTest tested c]: the callback [c] calls [Arg] only after a
    call of [IsArg] or [IsArgN] has returned [true] ([tested] says that
    one has). *)
Fixpoint claimsAfterTest (tested : bool) (c : Prog U) : Prop :=
  match c with
  | Done => True
  | CallIsOpt _ _ k => forall b, claimsAfterTest tested (k b)
  | CallIsStrOpt _ _ k => forall b, claimsAfterTest tested (k b)
  | CallStrVal k => forall v, claimsAfterTest tested (k v)
  | CallIsIntOpt _ _ _ _ k => forall b, claimsAfterTest tested (k b)
  | CallIntVal k => forall v, claimsAfterTest tested (k v)
  | CallIsArg k => claimsAfterTest true (k true) /\ claimsAfterTest tested (k false)
  | CallArgIdx k => forall i, claimsAfterTest tested (k i)
  | CallIsArgN _ k => claimsAfterTest true (k true) /\ claimsAfterTest tested (k false)
  | CallArg k => tested = true /\ forall v, claimsAfterTest tested (k v)
  | CallErrorf _ _ k => forall e, claimsAfterTest tested (k e)
  | Own X _ k => forall x, claimsAfterTest tested (k x)
  end.

(** [plainTests c]: the option tests of [c] are for options whose long and
    short names are not empty, and [c] does not call [Errorf] itself. *)
Fixpoint plainTests (c : Prog U) : Prop :=
  match c with
  | Done => True
  | CallIsOpt long short k =>
      long <> "" /\ short <> "" /\ forall b, plainTests (k b)
  | CallIsStrOpt long short k =>
      long <> "" /\ short <> "" /\ forall b, plainTests (k b)
  | CallStrVal k => forall v, plainTests (k v)
  | CallIsIntOpt long short _ _ k =>
      long <> "" /\ short <> "" /\ forall b, plainTests (k b)
  | CallIntVal k => forall v, plainTests (k v)
  | CallIsArg k => forall b, plainTests (k b)
  | CallArgIdx k => forall i, plainTests (k i)
  | CallIsArgN _ k => forall b, plainTests (k b)
  | CallArg k => forall v, plainTests (k v)
  | CallErrorf _ _ _ => False
  | Own X _ k => forall x, plainTests (k x)
  end.

(** Writing [s] to a stream. *)
Definition write (fd : File) (s : string) (w : World U) : World U :=
  match fd with
  | Stdout => set_stdout (stdout w ++ s) w
  | Stderr => set_stderr (stderr w ++ s) w
  end.

(** The lines after the first one, as they are written. *)
Fixpoint indented (formatLineFn : string -> string) (indent : string)
         (lines : list string) : string :=
  match lines with
  | [] => ""
  | line :: r =>
      formatLineFn (indent ++ line) ++ nl ++ indented formatLineFn indent r
  end.

End Vocabulary.

(** What [ProgramMessage] writes for the message [msg]: the first line
    after the program name, formatted with its line feed and followed by
    another one, and every other line indented, formatted and followed by a
    line feed. *)
Definition rendered (formatLineFn : string -> string) (program msg : string)
  : string :=
  formatLineFn (program ++ ": " ++ hd "" (linesOf msg) ++ nl) ++ nl
  ++ indented formatLineFn
       (strings.Repeat " " (utf8.RuneCountInString program + 2))
       (tl (linesOf msg)).

(** A callback that tests for an option without a short name and takes
    positional tokens after [IsArg] only. *)
Definition fnNoShort : Prog Tests.Opts :=
  CallIsOpt "verbose" "" (fun b =>
  if b then Assign (Tests.set_verbose true) Done else
  CallIsArg (fun b =>
  if b then CallArg (fun v => Assign (Tests.set_cmd v) Done) else Done)).

(** A callback that takes positional tokens after [IsArg] only, and raises
    an error of its own for every other token. *)
Definition fnOwnError : Prog Tests.Opts :=
  CallIsArg (fun b =>
  if b then CallArg (fun v => Assign (Tests.set_cmd v) Done)
  else CallErrorf "Unerwartet" [] (fun _ => Done)).

(** * Properties *)

(** ** Strings *)

Lemma append_empty_r (s : string) : s ++ "" = s.
Proof. induction s as [|c s IH]; simpl; [reflexivity | now rewrite IH]. Qed.

Lemma append_assoc (a b c : string) : (a ++ b) ++ c = a ++ (b ++ c).
Proof. induction a as [|x a IH]; simpl; [reflexivity | now rewrite IH]. Qed.

Lemma eqb_empty_false (s : string) : s <> "" -> (s =? "")%string = false.
Proof. intros Hs. now apply String.eqb_neq. Qed.

Lemma HasPrefix_dash (s : string) : strings.HasPrefix s "-" = startsWith "-" s.
Proof.
  destruct s as [|a t]; cbn [strings.HasPrefix startsWith]; [reflexivity|].
  rewrite Ascii.eqb_sym. destruct (Ascii.eqb a "-"); reflexivity.
Qed.

Lemma TrimLeft_stop (s : string) :
  startsWith "-" s = false -> strings.TrimLeft s "-" = s.
Proof.
  destruct s as [|a t]; cbn [strings.TrimLeft strings.inCutset startsWith];
    [reflexivity|].
  intros ->. reflexivity.
Qed.

Lemma TrimLeft_dashes (n : nat) (r : string) :
  startsWith "-" r = false -> strings.TrimLeft (dashes n ++ r) "-" = r.
Proof.
  intros Hr. induction n as [|n IH]; simpl.
  - now apply TrimLeft_stop.
  - exact IH.
Qed.

Lemma SplitN_2 (s sep : string) :
  strings.SplitN s sep 2 = strings.genSplit sep 1 0 s.
Proof. reflexivity. Qed.

Lemma SplitN_no_sep (r : string) :
  occurs "=" r = false -> strings.SplitN r "=" 2 = [r].
Proof.
  rewrite SplitN_2.
  induction r as [|c r IH]; [reflexivity|].
  cbn [occurs strings.genSplit strings.HasPrefix].
  intros Hc. apply orb_false_iff in Hc as [Hc Hr].
  rewrite Ascii.eqb_sym, Hc. cbn [andb]. rewrite (IH Hr). reflexivity.
Qed.

Lemma SplitN_first_sep (a b : string) :
  occurs "=" a = false -> strings.SplitN (a ++ "=" ++ b) "=" 2 = [a; b].
Proof.
  rewrite SplitN_2. change ("=" ++ b) with (String "=" b).
  induction a as [|c a IH].
  - intros _. destruct b; reflexivity.
  - cbn [occurs strings.genSplit strings.HasPrefix append].
    intros Hc. apply orb_false_iff in Hc as [Hc Ha].
    rewrite Ascii.eqb_sym, Hc. cbn [andb]. rewrite (IH Ha). reflexivity.
Qed.

(** ** The classifier *)

Lemma parseArg_positional (arg : string) :
  startsWith "-" arg = false -> parseArg arg = ("", arg).
Proof.
  intros Hs. unfold parseArg. now rewrite HasPrefix_dash, Hs.
Qed.

Lemma parseArg_option (arg : string) :
  startsWith "-" arg = true ->
  parseArg arg =
    (let parts := strings.SplitN (strings.TrimLeft arg "-") "=" 2 in
     (optionName (nth 0 parts ""),
      if (1 <? Z.of_nat (List.length parts)) then nth 1 parts "" else "")).
Proof.
  intros Hs. unfold parseArg. now rewrite HasPrefix_dash, Hs.
Qed.

Lemma startsWith_dashes (n : nat) (r : string) :
  startsWith "-" (dashes (S n) ++ r) = true.
Proof. reflexivity. Qed.

(** C2.  [parseArg] is a function of the token alone.  A token that does not
    start with [-] has the empty option name and is its own value.  A token
    of one or more [-] followed by [r], where [r] does not start with [-],
    is split at the first [=] of [r]: the name is what comes before it and
    the value what comes after it, and the value is empty when [r] has no
    [=]; an empty name is replaced by the placeholder [???]. *)
Theorem parseArg_classifies :
  (forall arg, startsWith "-" arg = false -> parseArg arg = ("", arg)) /\
  (forall n r, startsWith "-" r = false ->
     (occurs "=" r = false ->
      parseArg (dashes (S n) ++ r) = (optionName r, "")) /\
     (forall a b, occurs "=" a = false -> r = a ++ "=" ++ b ->
      parseArg (dashes (S n) ++ r) = (optionName a, b))) /\
  (forall n, parseArg (dashes (S n)) = ("???", "")) /\
  optionName "" = "???" /\
  (forall s, s <> "" -> optionName s = s).
Proof.
  split; [exact parseArg_positional|].
  split; [|split; [|split]].
  - intros n r Hr. split.
    + intros Hno. rewrite parseArg_option by apply startsWith_dashes.
      rewrite (TrimLeft_dashes (S n) r Hr), (SplitN_no_sep r Hno). reflexivity.
    + intros a b Ha ->. rewrite parseArg_option by apply startsWith_dashes.
      rewrite (TrimLeft_dashes (S n) _ Hr), (SplitN_first_sep a b Ha).
      reflexivity.
  - intros n. rewrite <- (append_empty_r (dashes (S n))).
    rewrite parseArg_option by apply startsWith_dashes.
    rewrite (TrimLeft_dashes (S n) "" eq_refl). reflexivity.
  - reflexivity.
  - intros s Hs. unfold optionName. now rewrite eqb_empty_false.
Qed.

Lemma parseArg_classifies_witness :
  parseArg "cmd" = ("", "cmd") /\
  parseArg "--level=2" = ("level", "2") /\
  parseArg "-v" = ("v", "") /\
  parseArg "--=x=y" = ("???", "x=y").
Proof.
  destruct parseArg_classifies as [Hpos [Hopt _]].
  split; [apply (Hpos "cmd"); reflexivity|].
  split; [apply (proj2 (Hopt 1%nat "level=2" eq_refl) "level" "2"); reflexivity|].
  split; [apply (proj1 (Hopt 0%nat "v" eq_refl)); reflexivity|].
  apply (proj2 (Hopt 1%nat "=x=y" eq_refl) "" "x=y"); reflexivity.
Defined.

(** ** [strconv.ParseInt] *)

Lemma isDigit_digit (c : ascii) :
  strconv.isDigit c = true -> 0 <= strconv.digit c <= 9.
Proof.
  unfold strconv.isDigit, strconv.digit, utf8.byte_in. intros Hd.
  apply andb_prop in Hd as [Hlo Hhi].
  apply Nat.leb_le in Hlo, Hhi. lia.
Qed.

Lemma isDigit_no_sign (c : ascii) :
  strconv.isDigit c = true ->
  Ascii.eqb c "+" = false /\ Ascii.eqb c "-" = false.
Proof.
  intros Hd. split.
  - destruct (Ascii.eqb_spec c "+") as [->|]; [discriminate Hd | reflexivity].
  - destruct (Ascii.eqb_spec c "-") as [->|]; [discriminate Hd | reflexivity].
Qed.

Lemma decimalValue_ge (s : string) :
  forall n, allDigits s = true -> 0 <= n -> n <= decimalValue s n.
Proof.
  induction s as [|c t IH]; intros n Hd Hn; cbn [decimalValue]; [lia|].
  cbn [allDigits] in Hd. apply andb_prop in Hd as [Hc Ht].
  pose proof (isDigit_digit c Hc).
  specialize (IH (n * 10 + strconv.digit c) Ht ltac:(lia)). lia.
Qed.

Lemma maxUint64_eq : strconv.maxUint64 = 18446744073709551615.
Proof. reflexivity. Qed.

Lemma cutoff_eq : strconv.maxUint64 / 10 + 1 = 1844674407370955162.
Proof. reflexivity. Qed.

(** The digit loop reads a string of digits as its value, if the value
    fits. *)
Lemma parseUintLoop_digits (s : string) :
  forall n, allDigits s = true -> 0 <= n ->
            decimalValue s n <= strconv.maxUint64 ->
            strconv.parseUintLoop s n = (decimalValue s n, None).
Proof.
  induction s as [|c t IH]; intros n Hd Hn Hmax;
    cbn [strconv.parseUintLoop decimalValue]; [reflexivity|].
  cbn [allDigits] in Hd. apply andb_prop in Hd as [Hc Ht].
  cbn [decimalValue] in Hmax. pose proof (isDigit_digit c Hc) as Hdc.
  pose proof (decimalValue_ge t (n * 10 + strconv.digit c) Ht ltac:(lia)) as Hge.
  rewrite Hc. cbn [negb].
  pose proof maxUint64_eq as Emax. pose proof cutoff_eq as Ecut.
  destruct (Z.geb_spec n (strconv.maxUint64 / 10 + 1)); [lia|].
  destruct (Z.gtb_spec (n * 10 + strconv.digit c) strconv.maxUint64); [lia|].
  apply IH; [exact Ht | lia | exact Hmax].
Qed.

(** The digit loop succeeds on strings of digits only, and a range error
    comes with the largest value. *)
Lemma parseUintLoop_result (s : string) :
  forall n u e, 0 <= n <= strconv.maxUint64 ->
    strconv.parseUintLoop s n = (u, e) ->
    match e with
    | None => allDigits s = true /\ u = decimalValue s n /\
              0 <= u <= strconv.maxUint64
    | Some strconv.ErrRange => u = strconv.maxUint64
    | Some strconv.ErrSyntax => u = 0
    end.
Proof.
  induction s as [|c t IH]; intros n u e Hn Hx;
    cbn [strconv.parseUintLoop] in Hx.
  - inversion Hx; subst. cbn. auto.
  - destruct (strconv.isDigit c) eqn:Hc; cbn [negb] in Hx;
      [|inversion Hx; reflexivity].
    pose proof maxUint64_eq as Emax. pose proof cutoff_eq as Ecut.
    destruct (Z.geb_spec n (strconv.maxUint64 / 10 + 1));
      [inversion Hx; reflexivity|].
    destruct (Z.gtb_spec (n * 10 + strconv.digit c) strconv.maxUint64);
      [inversion Hx; reflexivity|].
    pose proof (isDigit_digit c Hc) as Hdc.
    specialize (IH (n * 10 + strconv.digit c) u e ltac:(lia) Hx).
    destruct e as [[|]|]; try exact IH.
    cbn [allDigits decimalValue]. rewrite Hc. exact IH.
Qed.

Lemma ParseUint_digits (ds : string) :
  ds <> "" -> allDigits ds = true -> decimalValue ds 0 <= strconv.maxUint64 ->
  strconv.ParseUint ds = (decimalValue ds 0, None).
Proof.
  intros Hne Hd Hmax. unfold strconv.ParseUint.
  destruct ds as [|c t]; [congruence|].
  apply parseUintLoop_digits; [exact Hd | lia | exact Hmax].
Qed.

Lemma ParseUint_result (s : string) (u : Z) (e : option strconv.NumError) :
  strconv.ParseUint s = (u, e) ->
  match e with
  | None => s <> "" /\ allDigits s = true /\ u = decimalValue s 0 /\
            0 <= u <= strconv.maxUint64
  | Some strconv.ErrRange => u = strconv.maxUint64
  | Some strconv.ErrSyntax => u = 0
  end.
Proof.
  unfold strconv.ParseUint. destruct s as [|c t].
  - intros Hx. inversion Hx. reflexivity.
  - intros Hx.
    pose proof (parseUintLoop_result (String c t) 0 u e
                  ltac:(rewrite maxUint64_eq; lia) Hx) as Hr.
    destruct e as [[|]|]; try exact Hr.
    split; [discriminate | exact Hr].
Qed.

(** [ParseInt] returns [v] without an error exactly for the base-10
    integers with a value [v] that is an [int]. *)
Lemma ParseInt_decimalInt (s : string) (v : Z) :
  strconv.ParseInt s = (v, None) <-> decimalInt s v.
Proof.
  split.
  - unfold strconv.ParseInt. destruct s as [|c t]; [discriminate|].
    set (s' := if (Ascii.eqb c "+" || Ascii.eqb c "-")%bool
               then t else String c t).
    destruct (strconv.ParseUint s') as [un e] eqn:Hu.
    pose proof (ParseUint_result _ _ _ Hu) as Hr.
    change (2 ^ 63) with 9223372036854775808.
    destruct e as [[|]|]; [discriminate| |].
    + rewrite Hr, maxUint64_eq.
      destruct (Ascii.eqb c "-"); cbn; discriminate.
    + destruct Hr as (Hne & Hd & Hval & Hrange).
      destruct (Ascii.eqb c "-") eqn:Hminus; cbn [negb andb].
      * destruct (Z.gtb_spec un 9223372036854775808); [discriminate|].
        intros Hx. inversion Hx; subst v.
        apply Ascii.eqb_eq in Hminus. subst c.
        exists t. unfold MinInt, MaxInt.
        change (2 ^ 63) with 9223372036854775808. cbn in s'. subst s'.
        split; [exact Hne|]. split; [exact Hd|].
        split; [right; split; [reflexivity | congruence]|]. lia.
      * destruct (Z.geb_spec un 9223372036854775808); [discriminate|].
        intros Hx. inversion Hx; subst v.
        exists s'. unfold MinInt, MaxInt.
        change (2 ^ 63) with 9223372036854775808.
        split; [exact Hne|]. split; [exact Hd|]. split; [|lia].
        left. split; [|exact Hval]. unfold s'.
        destruct (Ascii.eqb c "+") eqn:Hplus; cbn [orb].
        -- apply Ascii.eqb_eq in Hplus. subst c. right. reflexivity.
        -- left. reflexivity.
  - intros (ds & Hne & Hd & Hs & Hrange). unfold MinInt, MaxInt in Hrange.
    change (2 ^ 63) with 9223372036854775808 in Hrange.
    pose proof (decimalValue_ge ds 0 Hd ltac:(lia)) as Hge.
    assert (Hu : strconv.ParseUint ds = (decimalValue ds 0, None)).
    { apply ParseUint_digits; [exact Hne | exact Hd |].
      rewrite maxUint64_eq. destruct Hs as [[_ ->]|[_ ->]]; lia. }
    destruct Hs as [[[->| ->] ->]|[-> ->]].
    + destruct ds as [|c t]; [congruence|].
      cbn [allDigits] in Hd. apply andb_prop in Hd as [Hc _].
      destruct (isDigit_no_sign c Hc) as [Hp Hm].
      unfold strconv.ParseInt. rewrite Hp, Hm. cbn [orb negb andb].
      rewrite Hu. change (2 ^ 63) with 9223372036854775808.
      destruct (Z.geb_spec (decimalValue (String c t) 0) 9223372036854775808);
        [lia | reflexivity].
    + cbn [append]. unfold strconv.ParseInt.
      change (Ascii.eqb "+" "+") with true. change (Ascii.eqb "+" "-") with false.
      cbn [orb negb andb]. rewrite Hu.
      change (2 ^ 63) with 9223372036854775808.
      destruct (Z.geb_spec (decimalValue ds 0) 9223372036854775808);
        [lia | reflexivity].
    + cbn [append]. unfold strconv.ParseInt.
      change (Ascii.eqb "-" "+") with false. change (Ascii.eqb "-" "-") with true.
      cbn [orb negb andb]. rewrite Hu.
      change (2 ^ 63) with 9223372036854775808.
      destruct (Z.gtb_spec (decimalValue ds 0) 9223372036854775808);
        [lia | reflexivity].
Qed.

(** ** Error messages *)

Lemma msg_unknown_option (o : string) :
  Sprintf "Unbekannte Option: --%s" [Str o] = "Unbekannte Option: --" ++ o.
Proof. cbn. now rewrite append_empty_r. Qed.

Lemma msg_too_many : Sprintf "Zu viele Argumente!" [] = "Zu viele Argumente!".
Proof. reflexivity. Qed.

Lemma msg_no_value (o : string) :
  Sprintf "Option erlaubt kein Options-Argument: --%s" [Str o]
  = "Option erlaubt kein Options-Argument: --" ++ o.
Proof. cbn. now rewrite append_empty_r. Qed.


Lemma msg_invalid_number (v o : string) :
  Sprintf "Ungültige Zahl: %s (Option --%s)" [Str v; Str o]
  = "Ungültige Zahl: " ++ v ++ " (Option --" ++ o ++ ")".
Proof. reflexivity. Qed.

Lemma msg_too_small (min v : Z) (o : string) :
  Sprintf "Zahl muß >= %d sein: %d (Option --%s)" [Int min; Int v; Str o]
  = "Zahl muß >= " ++ itoa min ++ " sein: " ++ itoa v
    ++ " (Option --" ++ o ++ ")".
Proof. reflexivity. Qed.

Lemma msg_too_big (max v : Z) (o : string) :
  Sprintf "Zahl muß <= %d sein: %d (Option --%s)" [Int max; Int v; Str o]
  = "Zahl muß <= " ++ itoa max ++ " sein: " ++ itoa v
    ++ " (Option --" ++ o ++ ")".
Proof. reflexivity. Qed.

(** ** The methods *)

Ltac unfold_pm :=
  cbv beta iota zeta delta
    [bind ret get modify getWorld lift retM bindM popNextArg
     set_rest set_argIdx set_onlyArgs set_opt set_strVal set_intVal
     set_grabbed set_err rest argIdx onlyArgs opt strVal intVal grabbed err].

Ltac unfold_pm_in Hx :=
  cbv beta iota zeta delta
    [bind ret get modify getWorld lift retM bindM popNextArg
     set_rest set_argIdx set_onlyArgs set_opt set_strVal set_intVal
     set_grabbed set_err rest argIdx onlyArgs opt strVal intVal grabbed err]
    in Hx.

(** Case analysis on every test that decides the result in [Hx]. *)
Ltac split_cases Hx :=
  repeat match type of Hx with
         | context [match ?x with _ => _ end] =>
             lazymatch x with
             | context [match _ with _ => _ end] => fail
             | _ => destruct x eqn:?; unfold_pm_in Hx
             end
         end.

(** Deciding [claimsAfterTest] and [plainTests] for a given callback. *)
Ltac check_callback :=
  repeat (cbn [claimsAfterTest plainTests Tests.fn fnNoShort fnOwnError
               Assign negb];
          match goal with
          | |- True => exact I
          | |- _ /\ _ => split
          | |- _ <> _ => discriminate
          | |- _ = _ => reflexivity
          | |- context [if ?c then _ else _] => destruct c
          | |- forall _, _ => intro
          end).

(** The parser is taken apart into its fields. *)
Ltac open_parser p :=
  let rs := fresh "rs" in let ai := fresh "ai" in let oa := fresh "oa" in
  let o := fresh "o" in let sv := fresh "sv" in let iv := fresh "iv" in
  let g := fresh "g" in let e := fresh "e" in
  destruct p as [rs ai oa o sv iv g e];
  cbn [rest argIdx onlyArgs opt strVal intVal grabbed err] in *.

Section MethodProperties.

Context {U : Type}.
Variable H : Handlers U.

Lemma Errorf_eq format args p w :
  Errorf H format args p w =
  match ErrorFunc H format args w with
  | Ok _ w' => Ok (Sprintf format args,
                   set_err (Some (Sprintf format args)) p) w'
  | Exited c w' => Exited c w'
  end.
Proof.
  unfold Errorf, fmt.Errorf. unfold_pm.
  destruct (ErrorFunc H format args w) as [[] w'|c w']; reflexivity.
Qed.

Lemma Errorf_then_false format args p w :
  bind (Errorf H format args) (fun _ => ret false) p w
  = raises H format args (Sprintf format args) p w.
Proof.
  unfold bind at 1. rewrite Errorf_eq. unfold raises, ret.
  destruct (ErrorFunc H format args w) as [[] w'|c w']; reflexivity.
Qed.

Lemma IsOpt_no_match long short p w :
  opt p <> long -> opt p <> short ->
  IsOpt H long short p w = Ok (false, p) w.
Proof.
  intros Hl Hs. unfold IsOpt. unfold bind at 1. unfold get at 1.
  apply String.eqb_neq in Hl, Hs. rewrite Hl, Hs. reflexivity.
Qed.

Lemma name_match_test (o long short : string) :
  o = long \/ o = short ->
  (negb (o =? long)%string && negb (o =? short)%string)%bool = false.
Proof.
  intros [->| ->]; rewrite String.eqb_refl; simpl;
    [reflexivity | apply andb_false_r].
Qed.

Lemma IsOpt_match_value long short p w :
  opt p = long \/ opt p = short -> strVal p <> "" ->
  IsOpt H long short p w
  = raises H "Option erlaubt kein Options-Argument: --%s" [Str long]
           ("Option erlaubt kein Options-Argument: --" ++ long)
           (set_opt long p) w.
Proof.
  intros Hm Hv. unfold IsOpt. unfold bind at 1. unfold get at 1.
  rewrite (name_match_test _ _ _ Hm).
  unfold bind at 1. unfold modify at 1. unfold bind at 1. unfold get at 1.
  cbn [strVal set_opt opt]. rewrite (eqb_empty_false _ Hv). cbn [negb].
  rewrite Errorf_then_false, msg_no_value. reflexivity.
Qed.



Lemma IsStrOpt_no_match long short p w :
  opt p <> long -> opt p <> short ->
  IsStrOpt H long short p w = Ok (false, p) w.
Proof.
  intros Hl Hs. unfold IsStrOpt. unfold bind at 1. unfold get at 1.
  apply String.eqb_neq in Hl, Hs. rewrite Hl, Hs. reflexivity.
Qed.

Lemma IsStrOpt_inline long short p w :
  opt p = long \/ opt p = short -> strVal p <> "" ->
  IsStrOpt H long short p w = Ok (true, set_grabbed true (set_opt long p)) w.
Proof.
  intros Hm Hv. unfold IsStrOpt. unfold bind at 1. unfold get at 1.
  rewrite (name_match_test _ _ _ Hm).
  unfold bind at 1. unfold modify at 1. unfold bind at 1. unfold get at 1.
  cbn [strVal set_opt opt]. rewrite (eqb_empty_false _ Hv). reflexivity.
Qed.




(** *** What every method keeps *)

Lemma evolves_refl p : evolves p p.
Proof. unfold evolves. auto 10. Qed.

Lemma evolves_trans p1 p2 p3 : evolves p1 p2 -> evolves p2 p3 -> evolves p1 p3.
Proof.
  unfold evolves. intros (A1 & B1 & C1 & D1 & E1) (A2 & B2 & C2 & D2 & E2).
  repeat split.
  - congruence.
  - lia.
  - auto.
  - auto.
  - destruct E2 as [->|E2]; auto.
Qed.

Ltac finish_evolves :=
  unfold evolves; cbn [rest argIdx onlyArgs opt strVal intVal grabbed err
                       List.length];
  repeat split; auto; try lia; try discriminate;
  try (right; left; reflexivity); try (right; right; discriminate).

Ltac method_evolves p Hx :=
  open_parser p; unfold_pm_in Hx; split_cases Hx;
  try discriminate Hx; inversion Hx; subst; finish_evolves.

Lemma Errorf_evolves format args p w e p' w' :
  Errorf H format args p w = Ok (e, p') w' -> evolves p p'.
Proof. intros Hx. unfold Errorf in Hx. method_evolves p Hx. Qed.

Lemma IsOpt_evolves long short p w b p' w' :
  IsOpt H long short p w = Ok (b, p') w' -> evolves p p'.
Proof. intros Hx. unfold IsOpt, Errorf in Hx. method_evolves p Hx. Qed.

Lemma IsStrOpt_evolves long short p w b p' w' :
  IsStrOpt H long short p w = Ok (b, p') w' -> evolves p p'.
Proof. intros Hx. unfold IsStrOpt, Errorf in Hx. method_evolves p Hx. Qed.

Lemma IsIntOpt_evolves long short min max p w b p' w' :
  IsIntOpt H long short min max p w = Ok (b, p') w' -> evolves p p'.
Proof.
  intros Hx. unfold IsIntOpt, IsStrOpt, Errorf in Hx. method_evolves p Hx.
Qed.

Lemma StrVal_eq p (w : World U) : StrVal p w = Ok (strVal p, p) w.
Proof. reflexivity. Qed.

Lemma IntVal_eq p (w : World U) : IntVal p w = Ok (intVal p, p) w.
Proof. reflexivity. Qed.

Lemma ArgIdx_eq p (w : World U) : ArgIdx p w = Ok (argIdx p, p) w.
Proof. reflexivity. Qed.

Lemma IsArg_eq p (w : World U) :
  IsArg p w
  = Ok (((opt p =? "")%string && negb (strVal p =? "")%string)%bool, p) w.
Proof.
  open_parser p. unfold IsArg. unfold_pm.
  destruct ((o =? "")%string && negb (sv =? "")%string)%bool; reflexivity.
Qed.

Lemma IsArgN_eq idx p (w : World U) :
  IsArgN idx p w
  = Ok (((argIdx p =? idx)
         && ((opt p =? "")%string && negb (strVal p =? "")%string))%bool, p) w.
Proof.
  unfold IsArgN. unfold bind at 1. unfold get at 1.
  destruct (argIdx p =? idx); cbn [negb andb]; [apply IsArg_eq | reflexivity].
Qed.

Lemma Arg_eq p (w : World U) :
  Arg p w
  = Ok (strVal p,
        if grabbed p then p
        else set_argIdx (int_incr (argIdx p)) (set_grabbed true p)) w.
Proof.
  open_parser p. unfold Arg. unfold_pm. destruct g; reflexivity.
Qed.

Lemma Arg_evolves p (w : World U) v p' w' :
  Arg p w = Ok (v, p') w' -> evolves p p'.
Proof.
  rewrite Arg_eq. intros Hx. inversion Hx; subst. open_parser p.
  destruct g; finish_evolves.
Qed.

(** The callback keeps what its calls keep. *)
Lemma run_evolves (c : Prog U) :
  forall p w p' w', run H c p w = Ok (tt, p') w' -> evolves p p'.
Proof.
  induction c as [|long short k IH|long short k IH|k IH
                  |long short min max k IH|k IH|k IH|k IH|idx k IH|k IH
                  |format args k IH|X m k IH];
    intros p w p' w' Hrun; cbn [run] in Hrun.
  - inversion Hrun. apply evolves_refl.
  - unfold bind in Hrun.
    destruct (IsOpt H long short p w) as [[b p1] w1|] eqn:E; [|discriminate].
    eapply evolves_trans; [eapply IsOpt_evolves, E | eapply IH, Hrun].
  - unfold bind in Hrun.
    destruct (IsStrOpt H long short p w) as [[b p1] w1|] eqn:E; [|discriminate].
    eapply evolves_trans; [eapply IsStrOpt_evolves, E | eapply IH, Hrun].
  - unfold bind in Hrun. rewrite StrVal_eq in Hrun. eapply IH, Hrun.
  - unfold bind in Hrun.
    destruct (IsIntOpt H long short min max p w) as [[b p1] w1|] eqn:E;
      [|discriminate].
    eapply evolves_trans; [eapply IsIntOpt_evolves, E | eapply IH, Hrun].
  - unfold bind in Hrun. rewrite IntVal_eq in Hrun. eapply IH, Hrun.
  - unfold bind in Hrun. rewrite IsArg_eq in Hrun. eapply IH, Hrun.
  - unfold bind in Hrun. rewrite ArgIdx_eq in Hrun. eapply IH, Hrun.
  - unfold bind in Hrun. rewrite IsArgN_eq in Hrun. eapply IH, Hrun.
  - unfold bind in Hrun.
    destruct (Arg p w) as [[b p1] w1|] eqn:E; [|discriminate].
    eapply evolves_trans; [eapply Arg_evolves, E | eapply IH, Hrun].
  - unfold bind in Hrun.
    destruct (Errorf H format args p w) as [[b p1] w1|] eqn:E; [|discriminate].
    eapply evolves_trans; [eapply Errorf_evolves, E | eapply IH, Hrun].
  - unfold bind, lift in Hrun.
    destruct (m w) as [x w1|]; [|discriminate]. eapply IH, Hrun.
Qed.

(** A callback that returns with the token unclaimed and no error has
    left the parser as it was. *)
Lemma run_unclaimed (c : Prog U) p w p' w' :
  run H c p w = Ok (tt, p') w' ->
  grabbed p' = false -> err p' = None -> p' = p.
Proof.
  intros Hrun Hg He. destruct (run_evolves c _ _ _ _ Hrun) as (_ & _ & _ & _ & E).
  destruct E as [E|[E|E]]; [exact E | congruence | congruence].
Qed.

(** *** [IsIntOpt] *)

Lemma IsStrOpt_true long short p w p1 w1 :
  IsStrOpt H long short p w = Ok (true, p1) w1 ->
  opt p1 = long /\ grabbed p1 = true /\ strVal p1 <> "".
Proof.
  intros Hx. unfold IsStrOpt, Errorf in Hx.
  open_parser p. unfold_pm_in Hx. split_cases Hx;
    try discriminate Hx; inversion Hx; subst;
    cbn [opt grabbed strVal]; repeat split;
    repeat match goal with
           | Hb : (_ && _)%bool = true |- _ => apply andb_prop in Hb as [? ?]
           | Hb : negb _ = true |- _ => apply negb_true_iff in Hb
           | Hb : (_ =? _)%string = false |- _ => apply String.eqb_neq in Hb
           end; assumption.
Qed.

Lemma IsIntOpt_eq long short min max p w :
  IsIntOpt H long short min max p w =
  match IsStrOpt H long short p w with
  | Ok (true, p1) w1 =>
      match strconv.ParseInt (strVal p1) with
      | (_, Some _) =>
          raises H "Ungültige Zahl: %s (Option --%s)"
                 [Str (strVal p1); Str (opt p1)]
                 ("Ungültige Zahl: " ++ strVal p1
                  ++ " (Option --" ++ opt p1 ++ ")") p1 w1
      | (v, None) =>
          if v <? min then
            raises H "Zahl muß >= %d sein: %d (Option --%s)"
                   [Int min; Int v; Str (opt p1)]
                   ("Zahl muß >= " ++ itoa min ++ " sein: " ++ itoa v
                    ++ " (Option --" ++ opt p1 ++ ")") p1 w1
          else if v >? max then
            raises H "Zahl muß <= %d sein: %d (Option --%s)"
                   [Int max; Int v; Str (opt p1)]
                   ("Zahl muß <= " ++ itoa max ++ " sein: " ++ itoa v
                    ++ " (Option --" ++ opt p1 ++ ")") p1 w1
          else Ok (true, set_intVal v p1) w1
      end
  | Ok (false, p1) w1 => Ok (false, p1) w1
  | Exited c w1 => Exited c w1
  end.
Proof.
  unfold IsIntOpt. unfold bind at 1.
  destruct (IsStrOpt H long short p w) as [[[|] p1] w1|c w1];
    [|reflexivity|reflexivity].
  cbn [negb]. unfold bind at 1. unfold get at 1.
  destruct (strconv.ParseInt (strVal p1)) as [v [e|]].
  - rewrite Errorf_then_false, msg_invalid_number. reflexivity.
  - destruct (v <? min).
    + rewrite Errorf_then_false, msg_too_small. reflexivity.
    + destruct (v >? max).
      * rewrite Errorf_then_false, msg_too_big. reflexivity.
      * reflexivity.
Qed.



(** *** The positional index *)

Lemma int_incr_succ (i : Z) : MinInt <= i < MaxInt -> int_incr i = i + 1.
Proof.
  unfold int_incr, wrap_int, MinInt, MaxInt. intros Hi.
  rewrite Z.mod_small; lia.
Qed.

Ltac method_keeps p Hx :=
  open_parser p; unfold_pm_in Hx; split_cases Hx;
  try discriminate Hx; inversion Hx; subst; reflexivity.

Lemma Errorf_argIdx format args p w e p' w' :
  Errorf H format args p w = Ok (e, p') w' -> argIdx p' = argIdx p.
Proof. intros Hx. unfold Errorf in Hx. method_keeps p Hx. Qed.

Lemma IsOpt_argIdx long short p w b p' w' :
  IsOpt H long short p w = Ok (b, p') w' -> argIdx p' = argIdx p.
Proof. intros Hx. unfold IsOpt, Errorf in Hx. method_keeps p Hx. Qed.

Lemma IsStrOpt_argIdx long short p w b p' w' :
  IsStrOpt H long short p w = Ok (b, p') w' -> argIdx p' = argIdx p.
Proof. intros Hx. unfold IsStrOpt, Errorf in Hx. method_keeps p Hx. Qed.

Lemma IsIntOpt_argIdx long short min max p w b p' w' :
  IsIntOpt H long short min max p w = Ok (b, p') w' -> argIdx p' = argIdx p.
Proof.
  intros Hx. unfold IsIntOpt, IsStrOpt, Errorf in Hx. method_keeps p Hx.
Qed.

Lemma classify_argIdx p w f p' w' :
  classify H p w = Ok (f, p') w' -> argIdx p' = argIdx p.
Proof. intros Hx. unfold classify in Hx. method_keeps p Hx. Qed.

Lemma check_argIdx p w f p' w' :
  check H p w = Ok (f, p') w' -> argIdx p' = argIdx p.
Proof. intros Hx. unfold check, Errorf in Hx. method_keeps p Hx. Qed.

(** C8.  [Arg] returns the current string value at every call.  At the
    first call on an unclaimed token it sets the claimed flag and
    increments the positional index; on a claimed token it changes
    nothing, so that a second call changes nothing.  [IsArg], [IsArgN]
    and [ArgIdx] leave the parser as it is, and no other method, nor the
    loop of [ParseArgs] around the callback, changes the index. *)
Theorem Arg_claims_once (p : Parser) (w : World U) :
  (grabbed p = false ->
   Arg p w = Ok (strVal p,
                 set_argIdx (int_incr (argIdx p)) (set_grabbed true p)) w /\
   (MinInt <= argIdx p < MaxInt -> int_incr (argIdx p) = argIdx p + 1)) /\
  (grabbed p = true -> Arg p w = Ok (strVal p, p) w) /\
  (forall v p' w', Arg p w = Ok (v, p') w' ->
     v = strVal p /\ strVal p' = strVal p /\ grabbed p' = true /\
     Arg p' w' = Ok (v, p') w') /\
  (exists b, IsArg p w = Ok (b, p) w) /\
  (forall idx, exists b, IsArgN idx p w = Ok (b, p) w) /\
  ArgIdx p w = Ok (argIdx p, p) w /\
  StrVal p w = Ok (strVal p, p) w /\
  IntVal p w = Ok (intVal p, p) w /\
  (forall long short b p' w',
     IsOpt H long short p w = Ok (b, p') w' -> argIdx p' = argIdx p) /\
  (forall long short b p' w',
     IsStrOpt H long short p w = Ok (b, p') w' -> argIdx p' = argIdx p) /\
  (forall long short min max b p' w',
     IsIntOpt H long short min max p w = Ok (b, p') w' ->
     argIdx p' = argIdx p) /\
  (forall format args e p' w',
     Errorf H format args p w = Ok (e, p') w' -> argIdx p' = argIdx p) /\
  (forall f p' w', classify H p w = Ok (f, p') w' -> argIdx p' = argIdx p) /\
  (forall f p' w', check H p w = Ok (f, p') w' -> argIdx p' = argIdx p).
Proof.
  split; [|split; [|split; [|split; [|split]]]].
  - intros Hg. split; [|apply int_incr_succ]. rewrite Arg_eq, Hg. reflexivity.
  - intros Hg. rewrite Arg_eq, Hg. reflexivity.
  - intros v p' w' Hx. rewrite Arg_eq in Hx. inversion Hx; subst.
    rewrite Arg_eq. open_parser p. destruct g; cbn; auto.
  - eexists. apply IsArg_eq.
  - intros idx. eexists. apply IsArgN_eq.
  - split; [reflexivity|]. split; [reflexivity|]. split; [reflexivity|].
    split; [intros; eapply IsOpt_argIdx; eassumption|].
    split; [intros; eapply IsStrOpt_argIdx; eassumption|].
    split; [intros; eapply IsIntOpt_argIdx; eassumption|].
    split; [intros; eapply Errorf_argIdx; eassumption|].
    split; [intros; eapply classify_argIdx; eassumption|].
    intros; eapply check_argIdx; eassumption.
Qed.

(** *** The loop of [ParseArgs] *)

Lemma classify_onlyArgs p w t r :
  rest p = t :: r -> onlyArgs p = true ->
  classify H p w = Ok (Continue, set_strVal t (set_opt "" (set_rest r p))) w.
Proof.
  intros Hr Ho. open_parser p. subst rs oa. reflexivity.
Qed.

Lemma classify_help p w r :
  rest p = "--help" :: r -> onlyArgs p = false ->
  classify H p w =
  match HelpFunc H (Help w) w with
  | Ok _ w' => Ok (Return None, set_rest r p) w'
  | Exited c w' => Exited c w'
  end.
Proof.
  intros Hr Ho. open_parser p. subst rs oa. unfold classify. unfold_pm.
  rewrite String.eqb_refl. unfold_pm.
  destruct (HelpFunc H (Help w) w) as [[] w'|c w']; reflexivity.
Qed.

Lemma classify_marker_last p w :
  rest p = ["--"] -> onlyArgs p = false ->
  classify H p w = Ok (Return (err p), set_rest [] p) w.
Proof.
  intros Hr Ho. open_parser p. subst rs oa. reflexivity.
Qed.

Lemma classify_marker p w t r :
  rest p = "--" :: t :: r -> onlyArgs p = false ->
  classify H p w
  = Ok (Continue,
        set_strVal (snd (parseArg t))
          (set_opt (fst (parseArg t))
             (set_rest r (set_onlyArgs true p)))) w.
Proof.
  intros Hr Ho. open_parser p. subst rs oa. unfold classify. unfold_pm.
  change ("--" =? "--help")%string with false.
  change ("--" =? "--")%string with true. unfold_pm.
  change (Z.of_nat (List.length (t :: r)) =? 0) with false. unfold_pm.
  destruct (parseArg t) as [o' v]. reflexivity.
Qed.

Lemma classify_token p w t r :
  rest p = t :: r -> onlyArgs p = false -> t <> "--help" -> t <> "--" ->
  classify H p w
  = Ok (Continue,
        set_strVal (snd (parseArg t))
          (set_opt (fst (parseArg t)) (set_rest r p))) w.
Proof.
  intros Hr Ho Hh Hm. open_parser p. subst rs oa. unfold classify. unfold_pm.
  apply String.eqb_neq in Hh, Hm. rewrite Hh, Hm. unfold_pm.
  destruct (parseArg t) as [o' v]. reflexivity.
Qed.

(** The classification takes at least one token and never leaves the
    only-positional mode. *)
Lemma classify_progress p w f p' w' :
  rest p <> [] -> classify H p w = Ok (f, p') w' ->
  (List.length (rest p') < List.length (rest p))%nat /\
  (onlyArgs p = true -> onlyArgs p' = true).
Proof.
  intros Hne Hx. unfold classify in Hx. open_parser p.
  destruct rs as [|t r]; [congruence|].
  unfold_pm_in Hx. split_cases Hx; try discriminate Hx; inversion Hx; subst;
    cbn [rest onlyArgs List.length]; split; (lia || congruence || auto).
Qed.

Lemma check_keeps p w f p' w' :
  check H p w = Ok (f, p') w' ->
  rest p' = rest p /\ onlyArgs p' = onlyArgs p /\
  (f = Continue -> p' = p /\ grabbed p = true /\ err p = None).
Proof.
  intros Hx. unfold check, Errorf in Hx. open_parser p.
  unfold_pm_in Hx. split_cases Hx; try discriminate Hx; inversion Hx; subst;
    cbn [rest onlyArgs]; repeat split; try discriminate.
  destruct g; [reflexivity | discriminate].
Qed.

Lemma iteration_eq fn p w :
  iteration H fn p w =
  match classify H p w with
  | Ok (Continue, p0) w0 =>
      match run H fn (set_grabbed false p0) w0 with
      | Ok (_, p1) w1 => check H p1 w1
      | Exited c w1 => Exited c w1
      end
  | Ok (Return e, p0) w0 => Ok (Return e, p0) w0
  | Exited c w0 => Exited c w0
  end.
Proof.
  unfold iteration. unfold bind at 1.
  destruct (classify H p w) as [[[|e] p0] w0|c w0]; reflexivity.
Qed.

(** Every iteration that goes on has taken a token, and keeps the
    only-positional mode. *)
Lemma iteration_progress fn p w p' w' :
  rest p <> [] -> iteration H fn p w = Ok (Continue, p') w' ->
  (List.length (rest p') < List.length (rest p))%nat /\
  (onlyArgs p = true -> onlyArgs p' = true).
Proof.
  intros Hne Hx. rewrite iteration_eq in Hx.
  destruct (classify H p w) as [[[|e] p0] w0|c w0] eqn:Ec; try discriminate.
  destruct (run H fn (set_grabbed false p0) w0) as [[[] p1] w1|c w1] eqn:Er;
    try discriminate.
  destruct (classify_progress _ _ _ _ _ Hne Ec) as [Hl Ho].
  destruct (run_evolves _ _ _ _ _ Er) as (Ho1 & Hl1 & _).
  destruct (check_keeps _ _ _ _ _ Hx) as (Hr2 & Ho2 & _).
  rewrite Hr2, Ho2, Ho1. cbn [rest onlyArgs set_grabbed] in *. split.
  - lia.
  - exact Ho.
Qed.

(** The loop ends: a bound of the number of tokens is enough, and a larger
    bound gives the same result. *)
Lemma parseLoop_total fn n :
  forall p w, (List.length (rest p) <= n)%nat ->
  exists r, parseLoop H n fn p w = Some r /\
            forall m, (n <= m)%nat -> parseLoop H m fn p w = Some r.
Proof.
  induction n as [|n IH]; intros p w Hlen.
  - destruct (rest p) as [|t r] eqn:Hr; [|simpl in Hlen; lia].
    eexists. split; [simpl; rewrite Hr; reflexivity|].
    intros m _. destruct m; simpl; rewrite Hr; reflexivity.
  - destruct (rest p) as [|t r] eqn:Hr.
    + eexists. split; [simpl; rewrite Hr; reflexivity|].
      intros m _. destruct m; simpl; rewrite Hr; reflexivity.
    + assert (Hne : rest p <> []) by congruence.
      cbn [parseLoop]. rewrite Hr.
      destruct (iteration H fn p w) as [[[|e] p'] w'|c w'] eqn:Ei.
      * destruct (iteration_progress _ _ _ _ _ Hne Ei) as [Hl _].
        rewrite Hr in Hl. simpl in Hl, Hlen.
        destruct (IH p' w' ltac:(lia)) as (res & Hres & Hmono).
        exists res. split; [exact Hres|].
        intros m Hm. destruct m as [|m]; [lia|].
        cbn [parseLoop]. rewrite Hr, Ei. apply Hmono. lia.
      * eexists. split; [reflexivity|].
        intros m Hm. destruct m as [|m]; [lia|].
        cbn [parseLoop]. rewrite Hr, Ei. reflexivity.
      * eexists. split; [reflexivity|].
        intros m Hm. destruct m as [|m]; [lia|].
        cbn [parseLoop]. rewrite Hr, Ei. reflexivity.
Qed.

(** [ParseArgs] always comes to an end: it returns, or the process has
    ended in a handler or in the callback. *)
Lemma ParseArgs_total args fn w : exists r, ParseArgs H args fn w = Some r.
Proof.
  unfold ParseArgs. destruct (parseInit args w) as [args' w0].
  destruct (parseLoop_total fn (List.length args') (newParser args') w0
                            (le_n _)) as (r & Hr & _).
  rewrite Hr. destruct r as [[e p] w'|c w']; eauto.
Qed.

(** *** The iterations of a parse *)

Lemma reaches_onlyArgs fn p w p' w' :
  reaches H fn p w p' w' -> onlyArgs p = true -> onlyArgs p' = true.
Proof.
  induction 1 as [|p w p1 w1 p2 w2 Hne Hi _ IH]; intros Ho; [exact Ho|].
  apply IH. now apply (iteration_progress _ _ _ _ _ Hne Hi).
Qed.

Lemma iteration_no_error fn p w p' w' :
  iteration H fn p w = Ok (Continue, p') w' -> err p' = None.
Proof.
  intros Hx. rewrite iteration_eq in Hx.
  destruct (classify H p w) as [[[|e] p0] w0|c w0]; try discriminate.
  destruct (run H fn (set_grabbed false p0) w0) as [[[] p1] w1|c w1];
    try discriminate.
  destruct (check_keeps _ _ _ _ _ Hx) as (_ & _ & Hk).
  destruct (Hk eq_refl) as (-> & _ & He). exact He.
Qed.

Lemma reaches_no_error fn p w p' w' :
  reaches H fn p w p' w' -> err p = None -> err p' = None.
Proof.
  induction 1 as [|p w p1 w1 p2 w2 Hne Hi _ IH]; intros He; [exact He|].
  apply IH. eapply iteration_no_error, Hi.
Qed.

Lemma reaches_parseLoop fn p w p' w' :
  reaches H fn p w p' w' ->
  forall n, (List.length (rest p) <= n)%nat ->
  (List.length (rest p') <= n)%nat /\
  parseLoop H n fn p w = parseLoop H n fn p' w'.
Proof.
  induction 1 as [|p w p1 w1 p2 w2 Hne Hi _ IH]; intros n Hn; [auto|].
  destruct (iteration_progress _ _ _ _ _ Hne Hi) as [Hl _].
  destruct n as [|n]; [lia|].
  destruct (IH (S n) ltac:(lia)) as [Hn2 IH2]. split; [exact Hn2|].
  rewrite <- IH2. cbn [parseLoop].
  destruct (rest p) as [|t r] eqn:Hr; [congruence|]. rewrite Hi.
  destruct (parseLoop_total fn n p1 w1 ltac:(lia)) as (res & Hres & Hmono).
  rewrite Hres. symmetry. apply (Hmono (S n)). lia.
Qed.

(** *** The positional index during a parse *)

(** A callback increments the index at most once. *)
Lemma run_argIdx (c : Prog U) :
  forall p w p' w', run H c p w = Ok (tt, p') w' ->
    argIdx p' = argIdx p \/
    (grabbed p = false /\ grabbed p' = true /\
     argIdx p' = int_incr (argIdx p)).
Proof.
  assert (Hstep : forall (p p1 p' : Parser),
             evolves p p1 -> argIdx p1 = argIdx p ->
             (argIdx p' = argIdx p1 \/
              (grabbed p1 = false /\ grabbed p' = true /\
               argIdx p' = int_incr (argIdx p1))) ->
             argIdx p' = argIdx p \/
             (grabbed p = false /\ grabbed p' = true /\
              argIdx p' = int_incr (argIdx p))).
  { intros p p1 p' (_ & _ & Hg & _) Ha [Hk|(Hg1 & Hg' & Hi)].
    - left. congruence.
    - right. split; [|split; [exact Hg' | congruence]].
      destruct (grabbed p); [rewrite Hg in Hg1 by reflexivity; discriminate|].
      reflexivity. }
  induction c as [|long short k IH|long short k IH|k IH
                  |long short min max k IH|k IH|k IH|k IH|idx k IH|k IH
                  |format args k IH|X m k IH];
    intros p w p' w' Hrun; cbn [run] in Hrun; unfold bind in Hrun.
  - inversion Hrun. left. reflexivity.
  - destruct (IsOpt H long short p w) as [[b p1] w1|] eqn:E; [|discriminate].
    eapply Hstep; [eapply IsOpt_evolves, E | eapply IsOpt_argIdx, E
                  | eapply IH, Hrun].
  - destruct (IsStrOpt H long short p w) as [[b p1] w1|] eqn:E; [|discriminate].
    eapply Hstep; [eapply IsStrOpt_evolves, E | eapply IsStrOpt_argIdx, E
                  | eapply IH, Hrun].
  - rewrite StrVal_eq in Hrun. eapply IH, Hrun.
  - destruct (IsIntOpt H long short min max p w) as [[b p1] w1|] eqn:E;
      [|discriminate].
    eapply Hstep; [eapply IsIntOpt_evolves, E | eapply IsIntOpt_argIdx, E
                  | eapply IH, Hrun].
  - rewrite IntVal_eq in Hrun. eapply IH, Hrun.
  - rewrite IsArg_eq in Hrun. eapply IH, Hrun.
  - rewrite ArgIdx_eq in Hrun. eapply IH, Hrun.
  - rewrite IsArgN_eq in Hrun. eapply IH, Hrun.
  - rewrite Arg_eq in Hrun. destruct (grabbed p) eqn:Hg.
    + destruct (IH _ _ _ _ _ Hrun) as [Hk|(Hf & _)];
        [left; exact Hk | congruence].
    + destruct (IH _ _ _ _ _ Hrun) as [Hk|(Hf & _)]; [|discriminate Hf].
      right. split; [reflexivity|]. split; [|exact Hk].
      destruct (run_evolves _ _ _ _ _ Hrun) as (_ & _ & Hmono & _).
      apply Hmono. reflexivity.
  - destruct (Errorf H format args p w) as [[b p1] w1|] eqn:E; [|discriminate].
    eapply Hstep; [eapply Errorf_evolves, E | eapply Errorf_argIdx, E
                  | eapply IH, Hrun].
  - unfold lift in Hrun. destruct (m w) as [x w1|]; [|discriminate].
    eapply IH, Hrun.
Qed.

Lemma iteration_argIdx fn p w f p' w' :
  iteration H fn p w = Ok (f, p') w' ->
  argIdx p' = argIdx p \/ argIdx p' = int_incr (argIdx p).
Proof.
  intros Hx. rewrite iteration_eq in Hx.
  destruct (classify H p w) as [[[|e] p0] w0|c w0] eqn:Ec; try discriminate.
  - destruct (run H fn (set_grabbed false p0) w0) as [[[] p1] w1|c w1] eqn:Er;
      try discriminate.
    apply classify_argIdx in Ec. apply check_argIdx in Hx.
    destruct (run_argIdx _ _ _ _ _ Er) as [Hk|(_ & _ & Hk)];
      cbn [argIdx set_grabbed] in Hk; [left | right]; congruence.
  - inversion Hx; subst. left. eapply classify_argIdx, Ec.
Qed.

(** At the start of every iteration the index is not negative and, with
    the tokens that are left, at most the number of tokens of the parse:
    the increment of [Arg] never wraps around. *)
Lemma reaches_argIdx fn p w p' w' (N : Z) :
  reaches H fn p w p' w' -> N <= MaxInt ->
  0 <= argIdx p -> argIdx p + Z.of_nat (List.length (rest p)) <= N ->
  0 <= argIdx p' /\ argIdx p' + Z.of_nat (List.length (rest p')) <= N.
Proof.
  induction 1 as [|p w p1 w1 p2 w2 Hne Hi _ IH]; intros HN H0 Hsum; [auto|].
  destruct (iteration_progress _ _ _ _ _ Hne Hi) as [Hl _].
  assert (Hincr : int_incr (argIdx p) = argIdx p + 1).
  { apply int_incr_succ. unfold MinInt, MaxInt in *.
    change (2 ^ 63) with 9223372036854775808 in *.
    destruct (rest p); [congruence | cbn [List.length] in Hsum; lia]. }
  destruct (iteration_argIdx _ _ _ _ _ _ Hi) as [Hk|Hk];
    apply IH; try exact HN; lia.
Qed.

Lemma parses_argIdx args w fn p wp :
  parses H args w fn p wp -> Z.of_nat (List.length args) <= MaxInt ->
  rest p <> [] ->
  0 <= argIdx p < MaxInt /\ int_incr (argIdx p) = argIdx p + 1.
Proof.
  unfold parses. intros Hp Hlen Hne.
  assert (Hb : 0 <= argIdx p /\
               argIdx p + Z.of_nat (List.length (rest p))
               <= Z.of_nat (List.length args)).
  { apply (reaches_argIdx _ _ _ _ _ _ Hp Hlen); cbn [argIdx rest newParser].
    - lia.
    - destruct args; cbn [parseInit fst List.length]; lia. }
  assert (Hr : 0 <= argIdx p < MaxInt).
  { destruct (rest p); [congruence | cbn [List.length] in Hb; lia]. }
  split; [exact Hr|]. apply int_incr_succ. unfold MinInt. lia.
Qed.

(** If an iteration of the parse makes the loop return [r], then
    [ParseArgs] returns it. *)
Lemma ParseArgs_from args w fn p w' r :
  parses H args w fn p w' ->
  (forall n, parseLoop H (S n) fn p w' = Some r) ->
  rest p <> [] ->
  ParseArgs H args fn w = Some (returned r).
Proof.
  unfold parses, ParseArgs. destruct (parseInit args w) as [args' w0].
  cbn [fst snd]. intros Hreach Hloop Hne.
  destruct (reaches_parseLoop _ _ _ _ _ Hreach (List.length args') (le_n _))
    as [Hlen ->].
  destruct (List.length args') as [|n].
  - destruct (rest p); [congruence | simpl in Hlen; lia].
  - rewrite Hloop. destruct r as [[e q] w1|c w1]; reflexivity.
Qed.

Lemma check_unclaimed p w :
  grabbed p = false -> err p = None ->
  check H p w =
  match (if negb (opt p =? "")%string
         then stops H "Unbekannte Option: --%s" [Str (opt p)]
                    ("Unbekannte Option: --" ++ opt p) p w
         else stops H "Zu viele Argumente!" [] "Zu viele Argumente!" p w) with
  | Ok (e, p') w' => Ok (Return e, p') w'
  | Exited c w' => Exited c w'
  end.
Proof.
  intros Hg He. unfold check. unfold bind at 1. unfold get at 1.
  rewrite He, Hg. cbn [negb]. unfold stops.
  destruct (negb (opt p =? "")%string).
  - unfold bind. rewrite Errorf_eq, msg_unknown_option.
    destruct (ErrorFunc H _ _ w); reflexivity.
  - unfold bind. rewrite Errorf_eq, msg_too_many.
    destruct (ErrorFunc H _ _ w); reflexivity.
Qed.

(** An iteration in which the callback returns with the token unclaimed
    and no error recorded. *)
Lemma unclaimed_loop (fn : Prog U) (p : Parser) (wp : World U)
      (p0 : Parser) (w0 : World U) (p1 : Parser) (w1 : World U) :
  rest p <> [] ->
  classify H p wp = Ok (Continue, p0) w0 ->
  run H fn (set_grabbed false p0) w0 = Ok (tt, p1) w1 ->
  grabbed p1 = false -> err p1 = None ->
  p1 = set_grabbed false p0 /\
  forall n, parseLoop H (S n) fn p wp =
            Some (if negb (opt p0 =? "")%string
                  then stops H "Unbekannte Option: --%s" [Str (opt p0)]
                             ("Unbekannte Option: --" ++ opt p0) p1 w1
                  else stops H "Zu viele Argumente!" [] "Zu viele Argumente!"
                             p1 w1).
Proof.
  intros Hne Hc Hr Hg He.
  pose proof (run_unclaimed _ _ _ _ _ Hr Hg He) as Hsame.
  split; [exact Hsame|]. intros n.
  assert (Ho : opt p1 = opt p0) by (rewrite Hsame; reflexivity).
  rewrite <- Ho. cbn [parseLoop].
  destruct (rest p) as [|t r]; [congruence|].
  rewrite iteration_eq, Hc, Hr, (check_unclaimed _ _ Hg He).
  destruct (negb (opt p1 =? "")%string);
    match goal with
    | |- context [stops H ?f ?a ?m p1 w1] =>
        destruct (stops H f a m p1 w1) as [[e q] w2|c w2]; reflexivity
    end.
Qed.

(** C1.  In every iteration of every parse: if the callback returns with
    the token unclaimed and no error recorded, then it has left the parser
    as it was, and the loop returns at once with the error that it hands
    to [ErrorFunc]: the unknown option [--name], with [name] the option
    name of the classified token, when that name is not empty, and too
    many arguments when it is empty.  The tokens that are left stay in
    [rest]; the callback is not called again. *)
Theorem unclaimed_token_fails (fn : Prog U) (args : list string) (w : World U)
        (p : Parser) (wp : World U) (p0 : Parser) (w0 : World U)
        (p1 : Parser) (w1 : World U) :
  parses H args w fn p wp ->
  rest p <> [] ->
  classify H p wp = Ok (Continue, p0) w0 ->
  run H fn (set_grabbed false p0) w0 = Ok (tt, p1) w1 ->
  grabbed p1 = false -> err p1 = None ->
  p1 = set_grabbed false p0 /\
  (opt p0 <> "" ->
   (forall n, parseLoop H (S n) fn p wp
              = Some (stops H "Unbekannte Option: --%s" [Str (opt p0)]
                            ("Unbekannte Option: --" ++ opt p0) p1 w1)) /\
   ParseArgs H args fn w
   = Some (returned (stops H "Unbekannte Option: --%s" [Str (opt p0)]
                           ("Unbekannte Option: --" ++ opt p0) p1 w1))) /\
  (opt p0 = "" ->
   (forall n, parseLoop H (S n) fn p wp
              = Some (stops H "Zu viele Argumente!" [] "Zu viele Argumente!"
                            p1 w1)) /\
   ParseArgs H args fn w
   = Some (returned (stops H "Zu viele Argumente!" [] "Zu viele Argumente!"
                           p1 w1))).
Proof.
  intros Hp Hne Hc Hr Hg He.
  destruct (unclaimed_loop fn p wp p0 w0 p1 w1 Hne Hc Hr Hg He)
    as [Hsame Hloop].
  split; [exact Hsame|]. split.
  - intros Hopt. rewrite (eqb_empty_false _ Hopt) in Hloop.
    split; [exact Hloop|]. now apply (ParseArgs_from _ _ _ _ _ _ Hp Hloop).
  - intros Hopt. rewrite Hopt in Hloop.
    split; [exact Hloop|]. now apply (ParseArgs_from _ _ _ _ _ _ Hp Hloop).
Qed.

(** *** The help flag *)

(** C7, as the code has it.  In every iteration of every parse that is not
    in only-positional mode and whose next token is [--help]: [HelpFunc]
    is called with the text of [Help] as it is configured (the formatting
    with [FormatHelp] is done in the default handler [PrintHelp], not
    before the call), in the process as the earlier tokens have left it,
    and [ParseArgs] returns [nil] as soon as the handler returns; the
    tokens after [--help] stay in [rest] and the callback is not called
    for them. *)
Theorem help_stops_parse (fn : Prog U) (args : list string) (w : World U)
        (p : Parser) (wp : World U) (r : list string) :
  parses H args w fn p wp ->
  rest p = "--help" :: r -> onlyArgs p = false ->
  (forall n, parseLoop H (S n) fn p wp
             = Some (helps H (Help wp) (set_rest r p) wp)) /\
  ParseArgs H args fn w = Some (returned (helps H (Help wp) (set_rest r p) wp)).
Proof.
  intros Hp Hr Ho.
  assert (Hloop : forall n, parseLoop H (S n) fn p wp
                            = Some (helps H (Help wp) (set_rest r p) wp)).
  { intros n. cbn [parseLoop]. rewrite Hr.
    rewrite iteration_eq, (classify_help _ _ _ Hr Ho). unfold helps.
    destruct (HelpFunc H (Help wp) wp) as [[] w'|c w']; reflexivity. }
  split; [exact Hloop|].
  apply (ParseArgs_from _ _ _ _ _ _ Hp Hloop). congruence.
Qed.

(** *** The end-of-options marker *)

(** In only-positional mode every token is exposed as it is, with the
    empty option name, and the mode lasts to the end of the parse. *)
Lemma onlyArgs_verbatim fn p w p' w' t r :
  onlyArgs p = true -> reaches H fn p w p' w' -> rest p' = t :: r ->
  onlyArgs p' = true /\
  classify H p' w' = Ok (Continue, set_strVal t (set_opt "" (set_rest r p'))) w'.
Proof.
  intros Ho Hreach Hr.
  pose proof (reaches_onlyArgs _ _ _ _ _ Hreach Ho) as Ho'.
  split; [exact Ho'|]. now apply classify_onlyArgs.
Qed.

(** *** The empty token *)

Lemma IsArg_empty p (w : World U) :
  opt p = "" -> strVal p = "" -> IsArg p w = Ok (false, p) w.
Proof. intros Ho Hv. rewrite IsArg_eq, Ho, Hv. reflexivity. Qed.

Lemma IsArgN_empty idx p (w : World U) :
  opt p = "" -> strVal p = "" -> IsArgN idx p w = Ok (false, p) w.
Proof.
  intros Ho Hv. rewrite IsArgN_eq, Ho, Hv. now rewrite andb_false_r.
Qed.

Lemma IsIntOpt_no_match long short min max p w :
  opt p <> long -> opt p <> short ->
  IsIntOpt H long short min max p w = Ok (false, p) w.
Proof.
  intros Hl Hs. rewrite IsIntOpt_eq, IsStrOpt_no_match by assumption.
  reflexivity.
Qed.

(** Such a callback leaves the parser of an empty token as it is. *)
Lemma run_empty_token (c : Prog U) :
  claimsAfterTest false c -> plainTests c ->
  forall p w p' w',
    opt p = "" -> strVal p = "" ->
    run H c p w = Ok (tt, p') w' -> p' = p.
Proof.
  induction c as [|long short k IH|long short k IH|k IH
                  |long short min max k IH|k IH|k IH|k IH|idx k IH|k IH
                  |format args k IH|X m k IH];
    cbn [claimsAfterTest plainTests]; intros Hc Hp p w p' w' Ho Hv Hrun;
    cbn [run] in Hrun; unfold bind in Hrun.
  - now inversion Hrun.
  - destruct Hp as (Hl & Hs & Hp).
    rewrite IsOpt_no_match in Hrun by congruence. eapply IH; eauto.
  - destruct Hp as (Hl & Hs & Hp).
    rewrite IsStrOpt_no_match in Hrun by congruence. eapply IH; eauto.
  - rewrite StrVal_eq in Hrun. eapply IH; eauto.
  - destruct Hp as (Hl & Hs & Hp).
    rewrite IsIntOpt_no_match in Hrun by congruence. eapply IH; eauto.
  - rewrite IntVal_eq in Hrun. eapply IH; eauto.
  - rewrite (IsArg_empty _ _ Ho Hv) in Hrun. eapply IH; eauto. apply Hc.
  - rewrite ArgIdx_eq in Hrun. eapply IH; eauto.
  - rewrite (IsArgN_empty _ _ _ Ho Hv) in Hrun. eapply IH; eauto. apply Hc.
  - destruct Hc as [Hc _]. discriminate.
  - contradiction.
  - unfold lift in Hrun. destruct (m w) as [x w1|]; [|discriminate].
    eapply IH; eauto.
Qed.

Lemma classify_empty p w r :
  rest p = "" :: r \/ (onlyArgs p = false /\ rest p = "--" :: "" :: r) ->
  exists p0, classify H p w = Ok (Continue, p0) w /\
             opt p0 = "" /\ strVal p0 = "" /\ err p0 = err p /\ rest p0 = r.
Proof.
  intros [Hr|[Ho Hr]].
  - destruct (onlyArgs p) eqn:Ho.
    + rewrite (classify_onlyArgs _ _ _ _ Hr Ho). eexists.
      split; [reflexivity|]. auto.
    + rewrite (classify_token _ _ _ _ Hr Ho) by discriminate.
      eexists. split; [reflexivity|]. auto.
  - rewrite (classify_marker _ _ _ _ Hr Ho).
    eexists. split; [reflexivity|]. auto.
Qed.

(** C10, as the code has it.  In every iteration of every parse that takes
    the empty string as its token (it is the next token, or the token after
    the marker [--]): the token is exposed with the empty option name and
    the empty value, so that [IsArg] and [IsArgN idx] return [false] for
    every [idx]; a callback that calls [Arg] only after one of these tests
    has succeeded, whose option tests are for names that are not empty and
    that raises no error itself, leaves the token unclaimed when it
    returns, and [ParseArgs] fails with the error of too many arguments. *)
Theorem empty_token_fails (fn : Prog U) (args : list string) (w : World U)
        (p : Parser) (wp : World U) (r : list string) :
  claimsAfterTest false fn -> plainTests fn ->
  parses H args w fn p wp ->
  rest p = "" :: r \/ (onlyArgs p = false /\ rest p = "--" :: "" :: r) ->
  exists p0,
    classify H p wp = Ok (Continue, p0) wp /\
    opt p0 = "" /\ strVal p0 = "" /\
    IsArg (set_grabbed false p0) wp = Ok (false, set_grabbed false p0) wp /\
    (forall idx, IsArgN idx (set_grabbed false p0) wp
                 = Ok (false, set_grabbed false p0) wp) /\
    (forall p1 w1,
       run H fn (set_grabbed false p0) wp = Ok (tt, p1) w1 ->
       p1 = set_grabbed false p0 /\ grabbed p1 = false /\
       (forall n, parseLoop H (S n) fn p wp
                  = Some (stops H "Zu viele Argumente!" [] "Zu viele Argumente!"
                                p1 w1)) /\
       ParseArgs H args fn w
       = Some (returned (stops H "Zu viele Argumente!" [] "Zu viele Argumente!"
                               p1 w1))).
Proof.
  intros Hc Hpl Hp Hr.
  assert (He : err p = None)
    by (apply (reaches_no_error _ _ _ _ _ Hp); reflexivity).
  assert (Hne : rest p <> []) by (destruct Hr as [Hr|[_ Hr]]; congruence).
  destruct (classify_empty p wp r Hr) as (p0 & Hcl & Ho & Hv & He0 & _).
  exists p0. split; [exact Hcl|]. split; [exact Ho|]. split; [exact Hv|].
  split; [now apply IsArg_empty|]. split; [intros; now apply IsArgN_empty|].
  intros p1 w1 Hrun.
  pose proof (run_empty_token fn Hc Hpl (set_grabbed false p0) _ _ _
                              Ho Hv Hrun) as Hsame.
  assert (Hg : grabbed p1 = false) by (rewrite Hsame; reflexivity).
  assert (He1 : err p1 = None) by (rewrite Hsame; cbn; congruence).
  split; [exact Hsame|]. split; [exact Hg|].
  destruct (unclaimed_loop fn p wp p0 wp p1 w1 Hne Hcl Hrun Hg He1)
    as [_ Hloop].
  rewrite Ho in Hloop.
  split; [exact Hloop|]. now apply (ParseArgs_from _ _ _ _ _ _ Hp Hloop).
Qed.

End MethodProperties.

(** ** Messages *)

Section Messages.

Context {U : Type}.

Lemma write_write fd a b (w : World U) :
  write fd b (write fd a w) = write fd (a ++ b) w.
Proof.
  destruct fd; unfold write, set_stdout, set_stderr; cbn;
    now rewrite append_assoc.
Qed.

Lemma write_empty fd (w : World U) : write fd "" w = w.
Proof.
  destruct w, fd; unfold write, set_stdout, set_stderr; cbn;
    now rewrite append_empty_r.
Qed.

Lemma Fprintln_eq fd s (w : World U) :
  Fprintln fd s w = Ok tt (write fd (s ++ nl) w).
Proof. destruct fd; reflexivity. Qed.

Lemma printIndented_eq fd f indent lines :
  forall w : World U,
    printIndented fd f indent lines w
    = Ok tt (write fd (indented f indent lines) w).
Proof.
  induction lines as [|line r IH]; intros w; cbn [printIndented indented].
  - unfold retM. now rewrite write_empty.
  - unfold bindM. rewrite Fprintln_eq, IH, write_write.
    now rewrite append_assoc.
Qed.

Lemma first_line_eq (program line : string) :
  Sprintf ("%s: %s" ++ nl) [Str program; Str line]
  = program ++ ": " ++ line ++ nl.
Proof. reflexivity. Qed.

(** What [ProgramMessage] writes: the formatted first line, which ends in
    a line feed of its own, then the line feed of [Fprintln], then the
    other lines of the message, each indented, formatted and ended by a
    line feed. *)
Lemma ProgramMessage_eq fd f format args (w : World U) :
  ProgramMessage fd f format args w =
  let lines := strings.Split (Sprintf format args) nl in
  let indent :=
    strings.Repeat " " (utf8.RuneCountInString (Program w) + 2) in
  Ok tt (write fd (f (Program w ++ ": " ++ nth 0 lines "" ++ nl) ++ nl
                   ++ indented f indent (tl lines)) w).
Proof.
  unfold ProgramMessage. cbv zeta. unfold bindM.
  rewrite Fprintln_eq, first_line_eq.
  destruct (1 <? Z.of_nat (List.length
              (strings.Split (Sprintf format args) nl))) eqn:Hlen.
  - rewrite printIndented_eq, write_write. now rewrite append_assoc.
  - destruct (strings.Split (Sprintf format args) nl) as [|l0 [|l1 r]].
    + unfold retM. cbn [tl indented]. now rewrite append_empty_r.
    + unfold retM. cbn [tl indented]. now rewrite append_empty_r.
    + apply Z.ltb_ge in Hlen. cbn [List.length] in Hlen. lia.
Qed.

End Messages.

(** ** The test suite *)

Example TestLongOpts :
  Tests.parse_cmdline ""
    ["/usr/bin/cmdline"; "--verbose"; "--file=file.txt"; "--level=2";
     "cmd"; "arg0"; "arg1"]
  = Some (Tests.mkOpts true "" "file.txt" 2 "cmd" ["arg0"; "arg1"], None)
  /\ path.Base "/usr/bin/cmdline" = "cmdline".
Proof. split; reflexivity. Qed.

Example TestShortOpts :
  Tests.parse_cmdline "cmdline"
    ["cmdline"; "-v"; "-f"; "file.txt"; "-l"; "2"; "cmd"; "arg0"]
  = Some (Tests.mkOpts true "" "file.txt" 2 "cmd" ["arg0"], None).
Proof. reflexivity. Qed.

Example TestHelp :
  Tests.parse_cmdline "cmdline" ["cmdline"; "--help"; "--verbose"]
  = Some (Tests.mkOpts false "Verwendung: cmdline [OPTS]" "" 0 "" [], None).
Proof. reflexivity. Qed.

Example TestOnlyArgs :
  Tests.parse_cmdline "cmdline" ["cmdline"; "-v"; "--"; "cmd"; "--file=file.txt"]
  = Some (Tests.mkOpts true "" "" 0 "cmd" ["--file=file.txt"], None).
Proof. reflexivity. Qed.

Example TestTooManyArgs :
  option_map snd
    (Tests.parse_cmdline "cmdline" ["cmdline"; "cmd"; "arg0"; "arg1"; "arg2"])
  = Some (Some "Zu viele Argumente!").
Proof. reflexivity. Qed.

Example TestUnknownOpt :
  option_map snd
    (Tests.parse_cmdline "cmdline" ["cmdline"; "--verbose"; "--unknown"])
  = Some (Some "Unbekannte Option: --unknown").
Proof. reflexivity. Qed.

Example TestMissingOptVal :
  option_map snd
    (Tests.parse_cmdline "cmdline" ["cmdline"; "--file"; "--verbose"])
  = Some (Some "Option erwartet ein Options-Argument: --file").
Proof. reflexivity. Qed.

Example TestUnwantedOptVal :
  option_map snd (Tests.parse_cmdline "cmdline" ["cmdline"; "--verbose=file1"])
  = Some (Some "Option erlaubt kein Options-Argument: --verbose").
Proof. reflexivity. Qed.

Example TestInvalidIntVal :
  option_map snd (Tests.parse_cmdline "cmdline" ["cmdline"; "--level=nonum"])
  = Some (Some "Ungültige Zahl: nonum (Option --level)") /\
  option_map snd (Tests.parse_cmdline "cmdline" ["cmdline"; "--level=-1"])
  = Some (Some "Zahl muß >= 0 sein: -1 (Option --level)") /\
  option_map snd (Tests.parse_cmdline "cmdline" ["cmdline"; "--level=4"])
  = Some (Some "Zahl muß <= 3 sein: 4 (Option --level)") /\
  option_map snd (Tests.parse_cmdline "cmdline" ["cmdline"; "-l"; "4"])
  = Some (Some "Zahl muß <= 3 sein: 4 (Option --level)").
Proof. repeat split; reflexivity. Qed.

Example TestFormatHelp :
  FormatHelp
    ("Verwendung: cmd [OPTS]" ++ nl
     ++ TAB ++ nl
     ++ TAB ++ "| Mein Kommando." ++ nl
     ++ TAB ++ nl
     ++ TAB ++ "Optionen:" ++ nl
     ++ TAB ++ "| -v, --verbose" ++ nl
     ++ TAB ++ nl
     ++ TAB)
  = "Verwendung: cmd [OPTS]" ++ nl
    ++ nl
    ++ "  Mein Kommando." ++ nl
    ++ nl
    ++ "Optionen:" ++ nl
    ++ "  -v, --verbose".
Proof. reflexivity. Qed.

(** The default handlers end the process: [SyntaxError] with status 1 after
    the message and the hint on [os.Stderr], [PrintHelp] with status 0 after
    the formatted help text on [os.Stdout]. *)
Lemma PrintHelp_eq {U : Type} (help : string) (w : World U) :
  PrintHelp help w = Exited 0 (write Stdout (FormatHelp help ++ nl) w).
Proof. reflexivity. Qed.

Lemma SyntaxError_exits {U : Type} format args (w : World U) :
  exists w', SyntaxError format args w = Exited 1 w' /\ stdout w' = stdout w.
Proof.
  unfold SyntaxError, Warn, bindM. rewrite ProgramMessage_eq. cbv zeta.
  eexists. split; reflexivity.
Qed.

(** ** Concrete runs *)

(** C5.  The token that follows the marker [--] is not exposed as it is:
    the iteration that takes the marker enters the only-positional mode,
    takes the next token too and hands it to [parseArg], so that
    [--file=file.txt] after [--] is exposed with the option name [file] and
    the value [file.txt], and the callback of the test suite takes it for
    the option [--file].  (The tokens of the later iterations are exposed
    as they are: [onlyArgs_verbatim].) *)
Theorem marker_token_is_classified :
  (forall (U : Type) (H : Handlers U) (w : World U),
     classify H (newParser ["--"; "--file=file.txt"]) w
     = Ok (Continue, mkParser [] 0 true "file" "file.txt" 0 false None) w) /\
  Tests.parse_cmdline "cmdline" ["cmdline"; "--"; "--file=file.txt"]
  = Some (Tests.mkOpts false "" "file.txt" 0 "" [], None) /\
  Tests.parse_cmdline "cmdline" ["cmdline"; "--"; "-v"; "--help"]
  = Some (Tests.mkOpts true "" "" 0 "--help" [], None).
Proof. repeat split; reflexivity. Qed.

(** C9.  [ProgramMessage] writes an empty line after the first line: the
    first line is formatted together with a line feed and [Fprintln] adds
    its own.  For the program [prog] the message [hello] is written as
    [prog: hello], an empty line; the message of the two lines [a] and [b]
    as [prog: a], an empty line, and [b] after six spaces. *)
Theorem ProgramMessage_blank_line :
  ProgramMessage Stderr DontFormat "hello" [] (Tests.world "prog")
  = Ok tt (set_stderr ("prog: hello" ++ nl ++ nl) (Tests.world "prog")) /\
  ProgramMessage Stderr DontFormat ("a" ++ nl ++ "b") [] (Tests.world "prog")
  = Ok tt (set_stderr ("prog: a" ++ nl ++ nl ++ "      b" ++ nl)
                      (Tests.world "prog")) /\
  "prog: hello" ++ nl ++ nl <> "prog: hello" ++ nl.
Proof. repeat split. discriminate. Qed.

(** C7, as it is stated, does not hold: the text that [HelpFunc] is called
    with is [Help], not [FormatHelp Help].  With the two lines [Optionen:]
    and [| -v] as [Help], the handler of the test suite stores the text
    with its bar, and [FormatHelp] would have put a space for the bar. *)
Lemma help_text_not_formatted :
  (match ParseArgs Tests.handlers ["cmdline"; "--help"] Tests.fn
                   (mkWorld "cmdline" ("Optionen:" ++ nl ++ "| -v")
                            DontFormat DontFormat [] "" "" Tests.noOpts) with
   | Some (Ok e w) => Some (e, Tests.help (user w))
   | _ => None
   end) = Some (None, "Optionen:" ++ nl ++ "| -v") /\
  FormatHelp ("Optionen:" ++ nl ++ "| -v") = "Optionen:" ++ nl ++ "  -v" /\
  ~ (forall (H : Handlers Tests.Opts) (fn : Prog Tests.Opts) (p : Parser)
            (w : World Tests.Opts) (r : list string) (n : nat),
       rest p = "--help" :: r -> onlyArgs p = false ->
       parseLoop H (S n) fn p w
       = Some (helps H (FormatHelp (Help w)) (set_rest r p) w)).
Proof.
  split; [reflexivity|]. split; [reflexivity|].
  intros Hc.
  specialize (Hc Tests.handlers Tests.fn (newParser ["--help"])
                 (mkWorld "cmdline" ("Optionen:" ++ nl ++ "| -v")
                          DontFormat DontFormat [] "" "" Tests.noOpts)
                 [] 0%nat eq_refl eq_refl).
  vm_compute in Hc. discriminate Hc.
Qed.

(** C10, as it is stated, does not hold.  Both callbacks call [Arg] after
    [IsArg] only.  With the first, the test [IsOpt "verbose" ""] matches the
    empty option name of the empty token and claims it, and [ParseArgs]
    returns [nil].  With the second, the callback raises an error of its
    own for the token that [IsArg] rejects, and [ParseArgs] returns that
    error. *)
Lemma empty_token_claimed_by_option :
  (claimsAfterTest false fnNoShort /\
   ParseArgs Tests.handlers ["cmdline"; ""] fnNoShort (Tests.world "cmdline")
   = Some (Ok None (set_user (Tests.set_verbose true Tests.noOpts)
                             (Tests.world "cmdline")))) /\
  (claimsAfterTest false fnOwnError /\
   ParseArgs Tests.handlers ["cmdline"; ""] fnOwnError (Tests.world "cmdline")
   = Some (Ok (Some "Unerwartet") (Tests.world "cmdline"))) /\
  ~ (forall (H : Handlers Tests.Opts) (fn : Prog Tests.Opts)
            (args : list string) (w : World Tests.Opts)
            (p : Parser) (wp : World Tests.Opts) (r : list string)
            (p0 p1 : Parser) (w1 : World Tests.Opts),
       claimsAfterTest false fn ->
       parses H args w fn p wp ->
       rest p = "" :: r ->
       classify H p wp = Ok (Continue, p0) wp ->
       run H fn (set_grabbed false p0) wp = Ok (tt, p1) w1 ->
       grabbed p1 = false /\
       ParseArgs H args fn w
       = Some (returned (stops H "Zu viele Argumente!" [] "Zu viele Argumente!"
                               p1 w1))).
Proof.
  assert (Hfn : claimsAfterTest false fnNoShort) by check_callback.
  split; [split; [exact Hfn | reflexivity]|].
  split; [split; [check_callback | reflexivity]|].
  intros Hc.
  destruct (Hc Tests.handlers fnNoShort ["cmdline"; ""] (Tests.world "cmdline")
               (newParser [""]) (Tests.world "cmdline") []
               (mkParser [] 0 false "" "" 0 false None)
               (mkParser [] 0 false "verbose" "" 0 true None)
               (set_user (Tests.set_verbose true Tests.noOpts)
                         (Tests.world "cmdline"))
               Hfn (reaches_here _ _ _ _) eq_refl eq_refl eq_refl)
    as [Hg _].
  discriminate Hg.
Qed.

(** ** Instances of the theorems *)




Lemma Arg_claims_once_witness :
  Arg (mkParser [] 0 false "" "cmd" 0 false None) (Tests.world "cmdline")
  = Ok ("cmd", mkParser [] 1 false "" "cmd" 0 true None) (Tests.world "cmdline")
  /\
  int_incr 0 = 0 + 1 /\
  Arg (mkParser [] 1 false "" "cmd" 0 true None) (Tests.world "cmdline")
  = Ok ("cmd", mkParser [] 1 false "" "cmd" 0 true None) (Tests.world "cmdline").
Proof.
  split; [|split].
  - apply (proj1 (proj1 (Arg_claims_once Tests.handlers
                    (mkParser [] 0 false "" "cmd" 0 false None)
                    (Tests.world "cmdline")) eq_refl)).
  - apply (proj2 (proj1 (Arg_claims_once Tests.handlers
                    (mkParser [] 0 false "" "cmd" 0 false None)
                    (Tests.world "cmdline")) eq_refl)).
    unfold MinInt, MaxInt. cbn [argIdx]. lia.
  - apply (proj1 (proj2 (Arg_claims_once Tests.handlers
                    (mkParser [] 1 false "" "cmd" 0 true None)
                    (Tests.world "cmdline"))) eq_refl).
Defined.

(** The callback of the test suite calls [Arg] after [IsArgN] or [IsArg]
    only, tests for options with names that are not empty, and raises no
    error itself. *)
Lemma Tests_fn_claimsAfterTest : claimsAfterTest false Tests.fn.
Proof. check_callback. Qed.

Lemma Tests_fn_plainTests : plainTests Tests.fn.
Proof. check_callback. Qed.

Lemma unclaimed_token_fails_witness :
  ParseArgs Tests.handlers ["cmdline"; "--verbose"; "--unknown"; "cmd"]
            Tests.fn (Tests.world "cmdline")
  = Some (returned
            (stops Tests.handlers "Unbekannte Option: --%s" [Str "unknown"]
                   "Unbekannte Option: --unknown"
                   (mkParser ["cmd"] 0 false "unknown" "" 0 false None)
                   (set_user (Tests.set_verbose true Tests.noOpts)
                             (Tests.world "cmdline")))) /\
  ParseArgs Tests.handlers ["cmdline"; "cmd"; "arg0"] Done (Tests.world "cmdline")
  = Some (returned
            (stops Tests.handlers "Zu viele Argumente!" [] "Zu viele Argumente!"
                   (mkParser ["arg0"] 0 false "" "cmd" 0 false None)
                   (Tests.world "cmdline"))).
Proof.
  split.
  - refine (proj2 (proj1 (proj2
      (unclaimed_token_fails Tests.handlers Tests.fn
         ["cmdline"; "--verbose"; "--unknown"; "cmd"] (Tests.world "cmdline")
         (mkParser ["--unknown"; "cmd"] 0 false "verbose" "" 0 true None)
         (set_user (Tests.set_verbose true Tests.noOpts) (Tests.world "cmdline"))
         (mkParser ["cmd"] 0 false "unknown" "" 0 true None)
         (set_user (Tests.set_verbose true Tests.noOpts) (Tests.world "cmdline"))
         (mkParser ["cmd"] 0 false "unknown" "" 0 false None)
         (set_user (Tests.set_verbose true Tests.noOpts) (Tests.world "cmdline"))
         _ _ eq_refl eq_refl eq_refl eq_refl)) _)).
    + eapply reaches_next; [discriminate | reflexivity | apply reaches_here].
    + discriminate.
    + discriminate.
  - refine (proj2 (proj2 (proj2
      (unclaimed_token_fails Tests.handlers Done
         ["cmdline"; "cmd"; "arg0"] (Tests.world "cmdline")
         (mkParser ["cmd"; "arg0"] 0 false "" "" 0 false None)
         (Tests.world "cmdline")
         (mkParser ["arg0"] 0 false "" "cmd" 0 false None)
         (Tests.world "cmdline")
         (mkParser ["arg0"] 0 false "" "cmd" 0 false None)
         (Tests.world "cmdline")
         _ _ eq_refl eq_refl eq_refl eq_refl)) eq_refl)).
    + apply reaches_here.
    + discriminate.
Defined.

Lemma help_stops_parse_witness :
  ParseArgs Tests.handlers ["cmdline"; "-v"; "--help"; "--verbose"]
            Tests.fn (Tests.world "cmdline")
  = Some (returned
            (helps Tests.handlers "Verwendung: cmdline [OPTS]"
                   (mkParser ["--verbose"] 0 false "verbose" "" 0 true None)
                   (set_user (Tests.set_verbose true Tests.noOpts)
                             (Tests.world "cmdline")))).
Proof.
  refine (proj2
    (help_stops_parse Tests.handlers Tests.fn
       ["cmdline"; "-v"; "--help"; "--verbose"] (Tests.world "cmdline")
       (mkParser ["--help"; "--verbose"] 0 false "verbose" "" 0 true None)
       (set_user (Tests.set_verbose true Tests.noOpts) (Tests.world "cmdline"))
       ["--verbose"] _ eq_refl eq_refl)).
  eapply reaches_next; [discriminate | reflexivity | apply reaches_here].
Defined.

Lemma empty_token_fails_witness :
  exists p0,
    classify Tests.handlers (newParser [""; "cmd"]) (Tests.world "cmdline")
    = Ok (Continue, p0) (Tests.world "cmdline") /\
    opt p0 = "" /\ strVal p0 = "" /\
    IsArg (set_grabbed false p0) (Tests.world "cmdline")
    = Ok (false, set_grabbed false p0) (Tests.world "cmdline") /\
    (forall idx, IsArgN idx (set_grabbed false p0) (Tests.world "cmdline")
                 = Ok (false, set_grabbed false p0) (Tests.world "cmdline")) /\
    (forall p1 w1,
       run Tests.handlers Tests.fn (set_grabbed false p0) (Tests.world "cmdline")
       = Ok (tt, p1) w1 ->
       p1 = set_grabbed false p0 /\ grabbed p1 = false /\
       (forall n, parseLoop Tests.handlers (S n) Tests.fn (newParser [""; "cmd"])
                            (Tests.world "cmdline")
                  = Some (stops Tests.handlers "Zu viele Argumente!" []
                                "Zu viele Argumente!" p1 w1)) /\
       ParseArgs Tests.handlers ["cmdline"; ""; "cmd"] Tests.fn
                 (Tests.world "cmdline")
       = Some (returned (stops Tests.handlers "Zu viele Argumente!" []
                               "Zu viele Argumente!" p1 w1))).
Proof.
  apply (empty_token_fails Tests.handlers Tests.fn ["cmdline"; ""; "cmd"]
           (Tests.world "cmdline") (newParser [""; "cmd"])
           (Tests.world "cmdline") ["cmd"]
           Tests_fn_claimsAfterTest Tests_fn_plainTests).
  - apply reaches_here.
  - left. reflexivity.
Defined.

Example empty_token_run :
  Tests.parse_cmdline "cmdline" ["cmdline"; ""; "cmd"]
  = Some (Tests.noOpts, Some "Zu viele Argumente!").
Proof. reflexivity. Qed.

(** * Further properties of the package *)

(** ** The loop and the callback *)

Section LoopProperties.

Context {U : Type}.
Variable H : Handlers U.

Ltac method_suffix p Hx :=
  open_parser p; unfold_pm_in Hx; split_cases Hx;
  try discriminate Hx; inversion Hx; subst;
  first [exists 0%nat; reflexivity | exists 1%nat; reflexivity].

Lemma Errorf_rest format args p w e p' w' :
  Errorf H format args p w = Ok (e, p') w' ->
  exists k, rest p' = skipn k (rest p).
Proof. intros Hx. unfold Errorf in Hx. method_suffix p Hx. Qed.

Lemma IsOpt_rest long short p w b p' w' :
  IsOpt H long short p w = Ok (b, p') w' ->
  exists k, rest p' = skipn k (rest p).
Proof. intros Hx. unfold IsOpt, Errorf in Hx. method_suffix p Hx. Qed.

Lemma IsStrOpt_rest long short p w b p' w' :
  IsStrOpt H long short p w = Ok (b, p') w' ->
  exists k, rest p' = skipn k (rest p).
Proof. intros Hx. unfold IsStrOpt, Errorf in Hx. method_suffix p Hx. Qed.

Lemma IsIntOpt_rest long short min max p w b p' w' :
  IsIntOpt H long short min max p w = Ok (b, p') w' ->
  exists k, rest p' = skipn k (rest p).
Proof.
  intros Hx. unfold IsIntOpt, IsStrOpt, Errorf in Hx. method_suffix p Hx.
Qed.

Lemma skipn_skipn_rest (l l1 l2 : list string) :
  (exists k, l1 = skipn k l) -> (exists k, l2 = skipn k l1) ->
  exists k, l2 = skipn k l.
Proof.
  intros [k1 ->] [k2 ->]. exists (k1 + k2)%nat.
  rewrite skipn_skipn. f_equal. lia.
Qed.

Lemma run_rest (c : Prog U) :
  forall p w p' w', run H c p w = Ok (tt, p') w' ->
                    exists k, rest p' = skipn k (rest p).
Proof.
  induction c as [|long short k IH|long short k IH|k IH
                  |long short min max k IH|k IH|k IH|k IH|idx k IH|k IH
                  |format args k IH|X m k IH];
    intros p w p' w' Hrun; cbn [run] in Hrun; unfold bind in Hrun.
  - inversion Hrun. exists 0%nat. reflexivity.
  - destruct (IsOpt H long short p w) as [[b p1] w1|] eqn:E; [|discriminate].
    eapply skipn_skipn_rest; [eapply IsOpt_rest, E | eapply IH, Hrun].
  - destruct (IsStrOpt H long short p w) as [[b p1] w1|] eqn:E; [|discriminate].
    eapply skipn_skipn_rest; [eapply IsStrOpt_rest, E | eapply IH, Hrun].
  - rewrite StrVal_eq in Hrun. eapply IH, Hrun.
  - destruct (IsIntOpt H long short min max p w) as [[b p1] w1|] eqn:E;
      [|discriminate].
    eapply skipn_skipn_rest; [eapply IsIntOpt_rest, E | eapply IH, Hrun].
  - rewrite IntVal_eq in Hrun. eapply IH, Hrun.
  - rewrite IsArg_eq in Hrun. eapply IH, Hrun.
  - rewrite ArgIdx_eq in Hrun. eapply IH, Hrun.
  - rewrite IsArgN_eq in Hrun. eapply IH, Hrun.
  - rewrite Arg_eq in Hrun. destruct (IH _ _ _ _ _ Hrun) as [n Hn].
    exists n. rewrite Hn. destruct (grabbed p); reflexivity.
  - destruct (Errorf H format args p w) as [[b p1] w1|] eqn:E; [|discriminate].
    eapply skipn_skipn_rest; [eapply Errorf_rest, E | eapply IH, Hrun].
  - unfold lift in Hrun. destruct (m w) as [x w1|]; [|discriminate].
    eapply IH, Hrun.
Qed.

(** X1.  [ParseArgs] comes to an end for every argument vector and every
    callback: an iteration that goes on to the next one has taken at least
    one token from [rest], so that as many iterations as there are tokens
    are enough, and more of them change nothing. *)
Theorem ParseArgs_terminates :
  (forall args fn w, exists r, ParseArgs H args fn w = Some r) /\
  (forall fn p w p' w',
     rest p <> [] -> iteration H fn p w = Ok (Continue, p') w' ->
     (List.length (rest p') < List.length (rest p))%nat) /\
  (forall fn p w n,
     (List.length (rest p) <= n)%nat ->
     parseLoop H n fn p w <> None /\
     parseLoop H n fn p w = parseLoop H (List.length (rest p)) fn p w).
Proof.
  split; [apply ParseArgs_total|]. split.
  - intros fn p w p' w' Hne Hi.
    apply (iteration_progress H _ _ _ _ _ Hne Hi).
  - intros fn p w n Hn.
    destruct (parseLoop_total H fn (List.length (rest p)) p w (le_n _))
      as (r & Hr & Hmono).
    rewrite Hr, (Hmono n Hn). split; [discriminate | reflexivity].
Qed.

(** X2.  What a callback can do to the parser through the exported
    methods: it cannot change [onlyArgs]; it can only take tokens from the
    front of [rest]; it cannot unclaim a claimed token nor clear a recorded
    error; and if it has changed anything, the token is claimed or an error
    is recorded when it returns. *)
Theorem callback_keeps (c : Prog U) (p : Parser) (w : World U)
        (p' : Parser) (w' : World U) :
  run H c p w = Ok (tt, p') w' ->
  onlyArgs p' = onlyArgs p /\
  (exists k, rest p' = skipn k (rest p)) /\
  (grabbed p = true -> grabbed p' = true) /\
  (err p <> None -> err p' <> None) /\
  (p' = p \/ grabbed p' = true \/ err p' <> None).
Proof.
  intros Hrun.
  destruct (run_evolves H c _ _ _ _ Hrun) as (Ho & _ & Hg & He & Hc).
  split; [exact Ho|]. split; [exact (run_rest c _ _ _ _ Hrun)|]. auto.
Qed.

(** X3.  The only-positional mode lasts: once an iteration starts with
    [onlyArgs] set, every later iteration starts with it set and exposes
    its token as it is, with the empty option name, also when the token is
    [--help] or [--] or starts with dashes; [IsArg] then holds exactly for
    the tokens that are not empty. *)
Theorem only_positional_mode_lasts (fn : Prog U) (p : Parser) (w : World U)
        (p' : Parser) (w' : World U) (t : string) (r : list string) :
  onlyArgs p = true -> reaches H fn p w p' w' -> rest p' = t :: r ->
  onlyArgs p' = true /\
  classify H p' w'
  = Ok (Continue, mkParser r (argIdx p') true "" t (intVal p') (grabbed p')
                           (err p')) w' /\
  IsArg (mkParser r (argIdx p') true "" t (intVal p') false (err p')) w'
  = Ok (negb (t =? "")%string,
        mkParser r (argIdx p') true "" t (intVal p') false (err p')) w'.
Proof.
  intros Ho Hreach Hr.
  pose proof (reaches_onlyArgs H _ _ _ _ _ Hreach Ho) as Ho'.
  split; [exact Ho'|]. split.
  - rewrite (classify_onlyArgs H _ _ _ _ Hr Ho').
    destruct p'; cbn in *. subst. reflexivity.
  - rewrite IsArg_eq. reflexivity.
Qed.

(** X4.  A marker [--] that is the last token is ignored: [ParseArgs]
    returns [nil] without calling the callback or a handler for it. *)
Theorem trailing_marker_returns_nil (fn : Prog U) (args : list string)
        (w : World U) (p : Parser) (wp : World U) :
  parses H args w fn p wp ->
  rest p = ["--"] -> onlyArgs p = false ->
  (forall n, parseLoop H (S n) fn p wp = Some (Ok (None, set_rest [] p) wp)) /\
  ParseArgs H args fn w = Some (Ok None wp).
Proof.
  intros Hp Hr Ho.
  assert (He : err p = None)
    by (apply (reaches_no_error H _ _ _ _ _ Hp); reflexivity).
  assert (Hloop : forall n, parseLoop H (S n) fn p wp
                            = Some (Ok (None, set_rest [] p) wp)).
  { intros n. cbn [parseLoop]. rewrite Hr.
    rewrite iteration_eq, (classify_marker_last H _ _ Hr Ho), He. reflexivity. }
  split; [exact Hloop|].
  apply (ParseArgs_from H _ _ _ _ _ _ Hp Hloop). congruence.
Qed.

(** X5.  An error that is recorded when the callback returns ends the
    parse at once, also when the token has been claimed: [ParseArgs] returns
    that error, and the tokens that are left stay in [rest]. *)
Theorem recorded_error_stops (fn : Prog U) (args : list string) (w : World U)
        (p : Parser) (wp : World U) (p0 : Parser) (w0 : World U)
        (p1 : Parser) (w1 : World U) (e : string) :
  parses H args w fn p wp ->
  rest p <> [] ->
  classify H p wp = Ok (Continue, p0) w0 ->
  run H fn (set_grabbed false p0) w0 = Ok (tt, p1) w1 ->
  err p1 = Some e ->
  (forall n, parseLoop H (S n) fn p wp = Some (Ok (Some e, p1) w1)) /\
  ParseArgs H args fn w = Some (Ok (Some e) w1).
Proof.
  intros Hp Hne Hc Hr He.
  assert (Hloop : forall n, parseLoop H (S n) fn p wp
                            = Some (Ok (Some e, p1) w1)).
  { intros n. cbn [parseLoop]. destruct (rest p) as [|t r]; [congruence|].
    rewrite iteration_eq, Hc, Hr. unfold check. unfold_pm.
    destruct p1; cbn in He; subst. reflexivity. }
  split; [exact Hloop|].
  exact (ParseArgs_from H _ _ _ _ _ _ Hp Hloop Hne).
Qed.

Lemma classify_err p w f p' w' :
  classify H p w = Ok (f, p') w' ->
  err p' = err p /\ (f = Continue \/ f = Return None \/ f = Return (err p)).
Proof.
  intros Hx. unfold classify in Hx. open_parser p. unfold_pm_in Hx.
  split_cases Hx; try discriminate Hx; inversion Hx; subst; cbn [err]; auto.
Qed.

Lemma check_return p w e p' w' :
  check H p w = Ok (Return e, p') w' -> e = err p' /\ e <> None.
Proof.
  intros Hx. unfold check, Errorf in Hx. open_parser p. unfold_pm_in Hx.
  split_cases Hx; try discriminate Hx; inversion Hx; subst; cbn [err];
    split; (reflexivity || discriminate).
Qed.

Lemma iteration_return fn p w e p' w' :
  err p = None -> iteration H fn p w = Ok (Return e, p') w' -> e = err p'.
Proof.
  intros He Hx. rewrite iteration_eq in Hx.
  destruct (classify H p w) as [[[|e0] p0] w0|c w0] eqn:Ec; try discriminate.
  - destruct (run H fn (set_grabbed false p0) w0) as [[[] p1] w1|c w1];
      try discriminate.
    apply (check_return _ _ _ _ _ Hx).
  - inversion Hx; subst. destruct (classify_err _ _ _ _ _ Ec) as [Hk Hf].
    rewrite Hk, He. destruct Hf as [Hf|[Hf|Hf]]; congruence.
Qed.

Lemma parseLoop_returns_err fn n :
  forall p w e p' w',
    err p = None -> parseLoop H n fn p w = Some (Ok (e, p') w') -> e = err p'.
Proof.
  induction n as [|n IH]; intros p w e p' w' He Hx; cbn [parseLoop] in Hx.
  - destruct (rest p); [|discriminate]. inversion Hx; subst. now rewrite He.
  - destruct (rest p) as [|t r].
    + inversion Hx; subst. now rewrite He.
    + destruct (iteration H fn p w) as [[[|e0] p1] w1|c w1] eqn:Ei.
      * apply (IH _ _ _ _ _ (iteration_no_error H _ _ _ _ _ Ei) Hx).
      * inversion Hx; subst. apply (iteration_return _ _ _ _ _ _ He Ei).
      * discriminate.
Qed.

(** X6.  The error that [ParseArgs] returns is the error recorded in the
    parser when the loop ends: [nil] is returned exactly when no error is
    recorded; and [Errorf] records the error of its own call, whatever was
    recorded before. *)
Theorem returned_error_is_recorded :
  (forall fn args w n e p' w',
     parseLoop H n fn (newParser (fst (parseInit args w)))
               (snd (parseInit args w)) = Some (Ok (e, p') w') ->
     e = err p') /\
  (forall format args p w e p' w',
     Errorf H format args p w = Ok (e, p') w' ->
     e = Sprintf format args /\ err p' = Some (Sprintf format args)).
Proof.
  split.
  - intros fn args w n e p' w' Hx.
    eapply parseLoop_returns_err; [|exact Hx]. reflexivity.
  - intros format args p w e p' w' Hx. rewrite Errorf_eq in Hx.
    destruct (ErrorFunc H format args w); [|discriminate].
    inversion Hx; subst. split; reflexivity.
Qed.

(** *** An [ErrorFunc] that ends the process *)

Section Exiting.

Hypothesis ErrorFunc_exits :
  forall format args w, exists c w', ErrorFunc H format args w = Exited c w'.

Ltac method_err p Hx :=
  open_parser p; unfold_pm_in Hx; split_cases Hx;
  try discriminate Hx;
  try match goal with
      | Hq : ErrorFunc H ?f ?a ?w = Ok _ _ |- _ =>
          destruct (ErrorFunc_exits f a w) as (? & ? & ?); congruence
      end;
  inversion Hx; subst; reflexivity.

Lemma IsOpt_err_exits long short p w b p' w' :
  IsOpt H long short p w = Ok (b, p') w' -> err p' = err p.
Proof. intros Hx. unfold IsOpt, Errorf in Hx. method_err p Hx. Qed.

Lemma IsStrOpt_err_exits long short p w b p' w' :
  IsStrOpt H long short p w = Ok (b, p') w' -> err p' = err p.
Proof. intros Hx. unfold IsStrOpt, Errorf in Hx. method_err p Hx. Qed.

Lemma IsIntOpt_err_exits long short min max p w b p' w' :
  IsIntOpt H long short min max p w = Ok (b, p') w' -> err p' = err p.
Proof.
  intros Hx. unfold IsIntOpt, IsStrOpt, Errorf in Hx. method_err p Hx.
Qed.

Lemma Errorf_exits format args p w :
  forall e p' w', Errorf H format args p w <> Ok (e, p') w'.
Proof.
  intros e p' w'. rewrite Errorf_eq.
  destruct (ErrorFunc_exits format args w) as (c & w1 & ->). discriminate.
Qed.

Lemma run_err_exits (c : Prog U) :
  forall p w p' w', run H c p w = Ok (tt, p') w' -> err p' = err p.
Proof.
  induction c as [|long short k IH|long short k IH|k IH
                  |long short min max k IH|k IH|k IH|k IH|idx k IH|k IH
                  |format args k IH|X m k IH];
    intros p w p' w' Hrun; cbn [run] in Hrun; unfold bind in Hrun.
  - now inversion Hrun.
  - destruct (IsOpt H long short p w) as [[b p1] w1|] eqn:E; [|discriminate].
    rewrite (IH _ _ _ _ _ Hrun). eapply IsOpt_err_exits, E.
  - destruct (IsStrOpt H long short p w) as [[b p1] w1|] eqn:E; [|discriminate].
    rewrite (IH _ _ _ _ _ Hrun). eapply IsStrOpt_err_exits, E.
  - rewrite StrVal_eq in Hrun. eapply IH, Hrun.
  - destruct (IsIntOpt H long short min max p w) as [[b p1] w1|] eqn:E;
      [|discriminate].
    rewrite (IH _ _ _ _ _ Hrun). eapply IsIntOpt_err_exits, E.
  - rewrite IntVal_eq in Hrun. eapply IH, Hrun.
  - rewrite IsArg_eq in Hrun. eapply IH, Hrun.
  - rewrite ArgIdx_eq in Hrun. eapply IH, Hrun.
  - rewrite IsArgN_eq in Hrun. eapply IH, Hrun.
  - rewrite Arg_eq in Hrun. rewrite (IH _ _ _ _ _ Hrun).
    destruct (grabbed p); reflexivity.
  - destruct (Errorf H format args p w) as [[b p1] w1|] eqn:E; [|discriminate].
    now apply Errorf_exits in E.
  - unfold lift in Hrun. destruct (m w) as [x w1|]; [|discriminate].
    eapply IH, Hrun.
Qed.

Lemma check_err_exits p w f p' w' :
  err p = None -> check H p w = Ok (f, p') w' -> err p' = None.
Proof.
  intros He Hx. unfold check, Errorf in Hx. open_parser p. subst e.
  unfold_pm_in Hx. split_cases Hx; try discriminate Hx;
    try match goal with
        | Hq : ErrorFunc H ?f ?a ?w = Ok _ _ |- _ =>
            destruct (ErrorFunc_exits f a w) as (? & ? & ?); congruence
        end.
  inversion Hx; subst. reflexivity.
Qed.

Lemma iteration_err_exits fn p w f p' w' :
  err p = None -> iteration H fn p w = Ok (f, p') w' -> err p' = None.
Proof.
  intros He Hx. rewrite iteration_eq in Hx.
  destruct (classify H p w) as [[[|e0] p0] w0|c w0] eqn:Ec; try discriminate.
  - destruct (run H fn (set_grabbed false p0) w0) as [[[] p1] w1|c w1] eqn:Er;
      try discriminate.
    apply run_err_exits in Er. cbn [err set_grabbed] in Er.
    destruct (classify_err _ _ _ _ _ Ec) as [Hk _].
    apply (check_err_exits p1 w1 f p' w'); [congruence | exact Hx].
  - inversion Hx; subst. destruct (classify_err _ _ _ _ _ Ec) as [Hk _].
    congruence.
Qed.

Lemma parseLoop_err_exits fn n :
  forall p w e p' w',
    err p = None -> parseLoop H n fn p w = Some (Ok (e, p') w') -> e = None.
Proof.
  induction n as [|n IH]; intros p w e p' w' He Hx.
  - cbn [parseLoop] in Hx. destruct (rest p); [|discriminate].
    now inversion Hx.
  - pose proof (parseLoop_returns_err fn (S n) _ _ _ _ _ He Hx) as Hret.
    cbn [parseLoop] in Hx. destruct (rest p) as [|t r].
    + now inversion Hx.
    + destruct (iteration H fn p w) as [[[|e0] p1] w1|c w1] eqn:Ei.
      * apply (IH _ _ _ _ _ (iteration_err_exits _ _ _ _ _ _ He Ei) Hx).
      * inversion Hx; subst.
        apply (iteration_err_exits _ _ _ _ _ _ He Ei).
      * discriminate.
Qed.

End Exiting.

(** X7.  With an [ErrorFunc] that ends the process at every call, as the
    default [SyntaxError] does, [ParseArgs] never returns an error: when it
    returns, it returns [nil]. *)
Theorem exiting_ErrorFunc_returns_nil (fn : Prog U) (args : list string)
        (w : World U) (e : option string) (w' : World U) :
  (forall format a w0, exists c w1, ErrorFunc H format a w0 = Exited c w1) ->
  ParseArgs H args fn w = Some (Ok e w') -> e = None.
Proof.
  intros Hex Hx. unfold ParseArgs in Hx.
  destruct (parseInit args w) as [args' w0].
  destruct (parseLoop H (List.length args') fn (newParser args') w0)
    as [[[e1 p1] w1|c w1]|] eqn:El; try discriminate.
  inversion Hx; subst.
  eapply (parseLoop_err_exits Hex); [|exact El]. reflexivity.
Qed.

End LoopProperties.

(** ** More on the classifier *)

Lemma TrimLeft_no_dash (arg : string) :
  startsWith "-" (strings.TrimLeft arg "-") = false.
Proof.
  induction arg as [|c t IH]; [reflexivity|].
  cbn [strings.TrimLeft strings.inCutset]. rewrite orb_false_r.
  destruct (Ascii.eqb c "-") eqn:Hc; [exact IH | exact Hc].
Qed.

(** The first part that [SplitN] cuts at [=] has no [=] and starts as the
    string does. *)
Lemma genSplit_head (r : string) :
  exists h tl, strings.genSplit "=" 1 0 r = h :: tl /\
               occurs "=" h = false /\
               (h = "" \/ startsWith "-" h = startsWith "-" r).
Proof.
  induction r as [|c t (h & tl & IH & Hno & Hst)].
  - exists "", []. auto.
  - cbn [strings.genSplit strings.HasPrefix].
    destruct (Ascii.eqb "=" c) eqn:Hc; cbn [andb].
    + eexists "", _. split; [reflexivity|]. auto.
    + rewrite IH. cbn [strings.consHead]. exists (String c h), tl.
      split; [reflexivity|]. split.
      * cbn [occurs]. rewrite Ascii.eqb_sym, Hc. exact Hno.
      * right. reflexivity.
Qed.

Lemma optionName_nonempty (s : string) : optionName s <> "".
Proof.
  unfold optionName. destruct s; cbn; discriminate.
Qed.

(** X8.  The option name that [parseArg] returns is empty exactly for the
    tokens that do not start with [-], and such a token is returned whole
    as the value; for every token the name does not start with [-] and
    has no [=] in it. *)
Theorem parseArg_option_name (arg : string) :
  (fst (parseArg arg) = "" <-> startsWith "-" arg = false) /\
  (startsWith "-" arg = false -> snd (parseArg arg) = arg) /\
  startsWith "-" (fst (parseArg arg)) = false /\
  occurs "=" (fst (parseArg arg)) = false.
Proof.
  destruct (startsWith "-" arg) eqn:Hs.
  - rewrite (parseArg_option arg Hs), SplitN_2. cbv zeta. cbn [fst snd].
    destruct (genSplit_head (strings.TrimLeft arg "-"))
      as (h & tl & -> & Hno & Hst).
    cbn [nth]. split; [|split; [discriminate|]].
    + split; [intros Hx; now apply optionName_nonempty in Hx | discriminate].
    + unfold optionName. destruct h as [|c h]; [split; reflexivity|].
      cbn [String.eqb]. split; [|exact Hno].
      destruct Hst as [Hst|Hst]; [discriminate|].
      rewrite Hst. apply TrimLeft_no_dash.
  - rewrite (parseArg_positional arg Hs). cbn [fst snd].
    split; [split; reflexivity|]. split; [reflexivity|]. split; reflexivity.
Qed.

(** X9.  The number of leading dashes makes no difference to [parseArg],
    and an [=] with nothing after it is the same as no [=]: [-f], [--f],
    [--f=] all give the name [f] and the empty value. *)
Theorem parseArg_forms :
  (forall n r, startsWith "-" r = false ->
     parseArg (dashes (S n) ++ r) = parseArg ("-" ++ r)) /\
  (forall n a, startsWith "-" a = false -> occurs "=" a = false ->
     parseArg (dashes (S n) ++ a ++ "=") = parseArg (dashes (S n) ++ a) /\
     parseArg (dashes (S n) ++ a) = (optionName a, "")).
Proof.
  split.
  - intros n r Hr. change ("-" ++ r) with (dashes 1 ++ r).
    rewrite (parseArg_option _ (startsWith_dashes n r)).
    rewrite (parseArg_option _ (startsWith_dashes 0 r)).
    now rewrite (TrimLeft_dashes (S n) r Hr), (TrimLeft_dashes 1 r Hr).
  - intros n a Ha Hno.
    assert (Ha' : startsWith "-" (a ++ "=") = false)
      by (destruct a; [reflexivity | exact Ha]).
    rewrite (parseArg_option _ (startsWith_dashes n (a ++ "="))).
    rewrite (parseArg_option _ (startsWith_dashes n a)).
    rewrite (TrimLeft_dashes (S n) _ Ha'), (TrimLeft_dashes (S n) _ Ha).
    change (a ++ "=") with (a ++ "=" ++ "").
    rewrite (SplitN_first_sep a "" Hno), (SplitN_no_sep a Hno). split; reflexivity.
Qed.

Lemma parseArg_forms_witness :
  parseArg "---file=x" = parseArg "-file=x" /\
  parseArg "--file=" = parseArg "--file" /\
  parseArg "--file" = ("file", "").
Proof.
  destruct parseArg_forms as [Hd Hv].
  split; [apply (Hd 2%nat "file=x"); reflexivity|].
  apply (Hv 1%nat "file"); reflexivity.
Defined.

Lemma parseArg_option_name_witness :
  snd (parseArg "cmd") = "cmd" /\ fst (parseArg "cmd") = "".
Proof.
  split.
  - apply (proj1 (proj2 (parseArg_option_name "cmd"))). reflexivity.
  - apply (proj2 (proj1 (parseArg_option_name "cmd"))). reflexivity.
Defined.

(** ** More on the methods *)

Section MethodEdges.

Context {U : Type}.
Variable H : Handlers U.

(** X10.  In a parse of an argument vector that a Go slice can hold, the
    positional index is never negative and, together with the tokens that
    are left, never more than the number of tokens: it counts tokens that
    have been taken, and its increment in [Arg] does not wrap around. *)
Theorem argIdx_within_parse (fn : Prog U) (args : list string) (w : World U)
        (p : Parser) (wp : World U) :
  parses H args w fn p wp ->
  Z.of_nat (List.length args) <= MaxInt ->
  0 <= argIdx p /\
  argIdx p + Z.of_nat (List.length (rest p))
  <= Z.of_nat (List.length (fst (parseInit args w))) /\
  (rest p <> [] -> int_incr (argIdx p) = argIdx p + 1).
Proof.
  unfold parses. intros Hp Hlen.
  assert (Hinit : Z.of_nat (List.length (fst (parseInit args w))) <= MaxInt)
    by (destruct args; cbn [parseInit fst List.length] in *; lia).
  destruct (reaches_argIdx H _ _ _ _ _ _ Hp Hinit) as [H0 Hsum];
    cbn [argIdx rest newParser]; try lia.
  split; [exact H0|]. split; [exact Hsum|].
  intros Hne. apply int_incr_succ. unfold MinInt.
  destruct (rest p); [congruence | cbn [List.length] in Hsum; lia].
Qed.

Ltac method_keeps_field p Hx :=
  open_parser p; unfold_pm_in Hx; split_cases Hx;
  try discriminate Hx; inversion Hx; subst; reflexivity.

Lemma IsStrOpt_intVal long short p w b p' w' :
  IsStrOpt H long short p w = Ok (b, p') w' -> intVal p' = intVal p.
Proof. intros Hx. unfold IsStrOpt, Errorf in Hx. method_keeps_field p Hx. Qed.

Lemma raises_Ok format args msg p w b p' w' :
  raises H format args msg p w = Ok (b, p') w' ->
  b = false /\ p' = set_err (Some msg) p.
Proof.
  unfold raises. destruct (ErrorFunc H format args w); [|discriminate].
  intros Hx. inversion Hx. auto.
Qed.

(** X11.  [IsIntOpt] writes [intVal] only when it returns [true]; then
    the value is within [min] and [max], it is the value of the base-10
    integer that [StrVal] returns, the token is claimed and the option name
    is [long].  When it returns [false], [intVal] is what it was. *)
Theorem IntVal_after_IsIntOpt (long short : string) (min max : Z)
        (p : Parser) (w : World U) (b : bool) (p' : Parser) (w' : World U) :
  IsIntOpt H long short min max p w = Ok (b, p') w' ->
  (b = true ->
   min <= intVal p' <= max /\ decimalInt (strVal p') (intVal p') /\
   grabbed p' = true /\ opt p' = long) /\
  (b = false -> intVal p' = intVal p).
Proof.
  intros Hx. rewrite IsIntOpt_eq in Hx.
  destruct (IsStrOpt H long short p w) as [[[|] p1] w1|c w1] eqn:Es;
    [| |discriminate].
  - pose proof (IsStrOpt_intVal _ _ _ _ _ _ _ Es) as Hi.
    destruct (IsStrOpt_true H _ _ _ _ _ _ Es) as (Ho & Hg & _).
    destruct (strconv.ParseInt (strVal p1)) as [v [e|]] eqn:Ep.
    + apply raises_Ok in Hx as [-> ->]. split; [discriminate|].
      intros _. exact Hi.
    + destruct (Z.ltb_spec v min).
      * apply raises_Ok in Hx as [-> ->]. split; [discriminate|].
        intros _. exact Hi.
      * destruct (Z.gtb_spec v max).
        -- apply raises_Ok in Hx as [-> ->]. split; [discriminate|].
           intros _. exact Hi.
        -- inversion Hx; subst. split; [|discriminate]. intros _.
           cbn [intVal strVal grabbed opt set_intVal].
           split; [lia|]. split; [now apply ParseInt_decimalInt|]. auto.
  - inversion Hx; subst. split; [discriminate|]. intros _.
    apply (IsStrOpt_intVal _ _ _ _ _ _ _ Es).
Qed.

(** X12.  Which tokens are positional.  Outside the only-positional mode,
    a token other than [--help] and [--] is exposed so that [IsArg] holds
    exactly when the token is not empty and does not start with [-]. *)
Theorem IsArg_after_classify (p : Parser) (w : World U) (t : string)
        (r : list string) :
  rest p = t :: r -> onlyArgs p = false -> t <> "--help" -> t <> "--" ->
  exists p0,
    classify H p w = Ok (Continue, p0) w /\
    rest p0 = r /\
    IsArg (set_grabbed false p0) w
    = Ok ((negb (startsWith "-" t) && negb (t =? "")%string)%bool,
          set_grabbed false p0) w.
Proof.
  intros Hr Ho Hh Hm. rewrite (classify_token H _ _ _ _ Hr Ho Hh Hm).
  eexists. split; [reflexivity|]. split; [reflexivity|].
  rewrite IsArg_eq. cbn [opt strVal set_grabbed set_strVal set_opt].
  destruct (startsWith "-" t) eqn:Hs.
  - assert (Hf : fst (parseArg t) <> "")
      by (rewrite (parseArg_option t Hs); apply optionName_nonempty).
    rewrite (eqb_empty_false _ Hf). reflexivity.
  - rewrite (parseArg_positional t Hs). reflexivity.
Qed.

(** X13.  An option test with an empty short name matches every token
    that has no option name.  For a token that is not empty and does not
    start with [-], [IsStrOpt long ""] claims the token and takes the token
    itself as the value of [--long], and [IsOpt long ""] raises the error
    that [--long] takes no value. *)
Theorem empty_short_name_matches_positional (long : string) (p : Parser)
        (w : World U) (t : string) (r : list string) :
  rest p = t :: r -> t <> "" -> startsWith "-" t = false ->
  exists p0,
    classify H p w = Ok (Continue, p0) w /\
    opt p0 = "" /\ strVal p0 = t /\
    IsStrOpt H long "" (set_grabbed false p0) w
    = Ok (true, set_grabbed true (set_opt long p0)) w /\
    IsOpt H long "" (set_grabbed false p0) w
    = raises H "Option erlaubt kein Options-Argument: --%s" [Str long]
             ("Option erlaubt kein Options-Argument: --" ++ long)
             (set_opt long (set_grabbed false p0)) w.
Proof.
  intros Hr Hne Hs.
  assert (Hcl : exists p0, classify H p w = Ok (Continue, p0) w /\
                           opt p0 = "" /\ strVal p0 = t).
  { destruct (onlyArgs p) eqn:Ho.
    - rewrite (classify_onlyArgs H _ _ _ _ Hr Ho). eexists.
      split; [reflexivity|]. split; reflexivity.
    - assert (Hh : t <> "--help") by (intros ->; discriminate Hs).
      assert (Hm : t <> "--") by (intros ->; discriminate Hs).
      rewrite (classify_token H _ _ _ _ Hr Ho Hh Hm).
      rewrite (parseArg_positional t Hs). eexists.
      split; [reflexivity|]. split; reflexivity. }
  destruct Hcl as (p0 & Hcl & Ho & Hv). exists p0.
  split; [exact Hcl|]. split; [exact Ho|]. split; [exact Hv|].
  assert (Hm : opt (set_grabbed false p0) = long \/ opt (set_grabbed false p0) = "")
    by (right; exact Ho).
  assert (Hv' : strVal (set_grabbed false p0) <> "")
    by (cbn [strVal set_grabbed]; congruence).
  split.
  - rewrite (IsStrOpt_inline H _ _ _ _ Hm Hv'). reflexivity.
  - apply (IsOpt_match_value H _ _ _ _ Hm Hv').
Qed.

End MethodEdges.

(** ** Lines *)

Lemma genSplit_linesOf (s : string) :
  forall n, (String.length s <= n)%nat -> strings.genSplit nl n 0 s = linesOf s.
Proof.
  induction s as [|c t IH]; intros n Hn; [reflexivity|].
  cbn [String.length] in Hn. destruct n as [|n]; [lia|].
  cbn [strings.genSplit linesOf strings.HasPrefix nl].
  rewrite (Ascii.eqb_sym LF c). destruct (Ascii.eqb c LF); cbn [andb].
  - cbn [String.length Nat.pred]. now rewrite IH by lia.
  - now rewrite IH by lia.
Qed.

Lemma Split_linesOf (s : string) : strings.Split s nl = linesOf s.
Proof.
  unfold strings.Split, strings.SplitN. cbn [Z.eqb Z.ltb Z.compare].
  apply genSplit_linesOf. lia.
Qed.

Lemma linesOf_nonempty (s : string) : linesOf s <> [].
Proof.
  induction s as [|c t IH]; cbn [linesOf]; [discriminate|].
  destruct (Ascii.eqb c LF); [discriminate|].
  destruct (linesOf t); [congruence | discriminate].
Qed.

Lemma consHead_app (c : ascii) (l1 l2 : list string) :
  l1 <> [] ->
  strings.consHead c (l1 ++ l2)%list = (strings.consHead c l1 ++ l2)%list.
Proof. destruct l1; [congruence | reflexivity]. Qed.

(** The lines of two texts joined by a line feed. *)
Lemma linesOf_app (a b : string) :
  linesOf (a ++ nl ++ b) = (linesOf a ++ linesOf b)%list.
Proof.
  induction a as [|c t IH]; [reflexivity|].
  cbn [append linesOf]. destruct (Ascii.eqb c LF).
  - cbn [app]. f_equal. exact IH.
  - rewrite IH. apply consHead_app, linesOf_nonempty.
Qed.

(** Joining the lines of a text with line feeds gives the text back. *)
Lemma Join_linesOf (s : string) : strings.Join (linesOf s) nl = s.
Proof.
  induction s as [|c t IH]; [reflexivity|].
  cbn [linesOf]. destruct (Ascii.eqb_spec c LF) as [->|Hc].
  - pose proof (linesOf_nonempty t) as Hne.
    destruct (linesOf t) as [|l ls] eqn:El; [congruence|].
    cbn [strings.Join append] in *. now rewrite IH.
  - pose proof (linesOf_nonempty t) as Hne.
    destruct (linesOf t) as [|l ls] eqn:El; [congruence|].
    cbn [strings.consHead]. destruct ls as [|l' ls'].
    + cbn [strings.Join] in *. now rewrite IH.
    + cbn [strings.Join append] in *. now rewrite IH.
Qed.

(** ** Messages and termination *)

Section MessageProperties.

Context {U : Type}.

Lemma ProgramMessage_rendered fd f format args (w : World U) :
  ProgramMessage fd f format args w
  = Ok tt (write fd (rendered f (Program w) (Sprintf format args)) w).
Proof.
  rewrite ProgramMessage_eq. cbv zeta. rewrite Split_linesOf. unfold rendered.
  destruct (linesOf (Sprintf format args)); reflexivity.
Qed.

(** X14.  What the message functions write.  [ProgramMessage] appends to
    its stream the first line of the message after the program name and a
    colon, formatted together with a line feed and followed by a second
    line feed, and then every other line of the message after as many
    spaces as the program name has runes, plus two, formatted and followed
    by a line feed; it returns and changes nothing else.  [Warn] does so on
    [os.Stderr] with [FormatWarningFunc], [Info] on [os.Stdout] with
    [FormatInfoFunc]. *)
Theorem message_rendering (fd : File) (f : string -> string) (format : string)
        (args : list any) (w : World U) :
  ProgramMessage fd f format args w
  = Ok tt (write fd (rendered f (Program w) (Sprintf format args)) w) /\
  Warn format args w
  = Ok tt (set_stderr (stderr w ++ rendered (FormatWarningFunc w) (Program w)
                                            (Sprintf format args)) w) /\
  Info format args w
  = Ok tt (set_stdout (stdout w ++ rendered (FormatInfoFunc w) (Program w)
                                            (Sprintf format args)) w) /\
  (forall line, occurs LF line = false ->
     rendered f (Program w) line = f (Program w ++ ": " ++ line ++ nl) ++ nl).
Proof.
  split; [apply ProgramMessage_rendered|].
  split; [unfold Warn; apply ProgramMessage_rendered|].
  split; [unfold Info; apply ProgramMessage_rendered|].
  intros line Hno. unfold rendered.
  assert (Hl : linesOf line = [line]).
  { clear -Hno. induction line as [|c t IH]; [reflexivity|].
    cbn [occurs] in Hno. apply orb_false_iff in Hno as [Hc Ht].
    cbn [linesOf]. rewrite Hc, (IH Ht). reflexivity. }
  rewrite Hl. cbn [hd tl indented]. now rewrite append_empty_r.
Qed.

Lemma hint_line (msg : string) :
  Sprintf ("%s" ++ nl ++ nl ++ helpHint) [Str msg]
  = msg ++ nl ++ nl ++ helpHint.
Proof. reflexivity. Qed.

(** X15.  [SyntaxError] and [RuntimeError] never return: both end the
    process with status 1 and write to [os.Stderr] only.  [RuntimeError]
    writes the message as [Warn] does; [SyntaxError] writes the lines of
    the message, an empty line and the hint to use [--help]. *)
Theorem errors_end_the_process (format : string) (args : list any)
        (w : World U) :
  RuntimeError format args w
  = Exited 1 (set_stderr (stderr w ++ rendered (FormatWarningFunc w) (Program w)
                                               (Sprintf format args)) w) /\
  SyntaxError format args w
  = Exited 1 (set_stderr
                (stderr w ++ rendered (FormatWarningFunc w) (Program w)
                               (Sprintf format args ++ nl ++ nl ++ helpHint))
                w) /\
  linesOf (Sprintf format args ++ nl ++ nl ++ helpHint)
  = (linesOf (Sprintf format args) ++ [""; helpHint])%list.
Proof.
  split; [|split].
  - unfold RuntimeError, Warn, bindM. rewrite ProgramMessage_rendered.
    reflexivity.
  - unfold SyntaxError, Warn, bindM.
    change ("%s" ++ nl ++ nl ++ "Verwenden Sie --help für weitere Hilfe!")
      with ("%s" ++ nl ++ nl ++ helpHint).
    rewrite ProgramMessage_rendered, hint_line. reflexivity.
  - rewrite linesOf_app. f_equal.
Qed.

End MessageProperties.

(** ** [FormatHelp] *)

Lemma FormatHelp_eq (help : string) :
  FormatHelp help
  = strings.Join
      (dropEmptyTail (List.length (map formatLine (linesOf help)))
                     (map formatLine (linesOf help))) nl.
Proof.
  unfold FormatHelp. rewrite Split_linesOf.
  assert (Hm : forall ls,
             map (fun line =>
                    let line := strings.TrimSpace line in
                    let '(after, found) := strings.CutPrefix line "|" in
                    if found then " " ++ after else line) ls
             = map formatLine ls).
  { intros ls. apply map_ext. intros l. unfold formatLine. cbv zeta.
    destruct (strings.CutPrefix (strings.TrimSpace l) "|") as [after [|]];
      reflexivity. }
  rewrite Hm. reflexivity.
Qed.

Lemma nth_last (ls : list string) :
  forall n, List.length ls = S n -> nth n ls "" = last ls "".
Proof.
  induction ls as [|x ls IH]; intros n Hn; [discriminate|].
  destruct ls as [|y ls'].
  - cbn in Hn. injection Hn as <-. reflexivity.
  - destruct n as [|n]; [discriminate|].
    change (nth n (y :: ls') "" = last (y :: ls') "").
    apply IH. cbn in *. lia.
Qed.

Lemma dropEmptyTail_prefix (n : nat) :
  forall ls, exists k, dropEmptyTail n ls = firstn k ls.
Proof.
  induction n as [|n IH]; intros ls; cbn [dropEmptyTail].
  - exists (List.length ls). now rewrite firstn_all.
  - destruct (negb (nth n ls "" =? "")%string).
    + exists (List.length ls). now rewrite firstn_all.
    + destruct (IH (firstn n ls)) as [k ->].
      exists (Nat.min k n). apply firstn_firstn.
Qed.

Lemma dropEmptyTail_last (n : nat) :
  forall ls, List.length ls = n ->
             dropEmptyTail n ls = [] \/ last (dropEmptyTail n ls) "" <> "".
Proof.
  induction n as [|n IH]; intros ls Hn; cbn [dropEmptyTail].
  - destruct ls; [left; reflexivity | discriminate].
  - destruct (nth n ls "" =? "")%string eqn:He; cbn [negb].
    + apply IH. rewrite length_firstn. lia.
    + right. rewrite <- (nth_last ls n Hn). now apply String.eqb_neq.
Qed.

Lemma dropEmptyTail_id (ls : list string) :
  last ls "" <> "" -> dropEmptyTail (List.length ls) ls = ls.
Proof.
  intros Hl. destruct (List.length ls) as [|n] eqn:Hn; [reflexivity|].
  cbn [dropEmptyTail]. rewrite (nth_last ls n Hn).
  now rewrite (eqb_empty_false _ Hl).
Qed.

Lemma In_firstn (k : nat) :
  forall (ls : list string) (x : string), In x (firstn k ls) -> In x ls.
Proof.
  induction k as [|k IH]; intros ls x Hin; [contradiction|].
  destruct ls as [|y ls']; [contradiction|].
  destruct Hin as [->|Hin]; [left; reflexivity | right; now apply IH].
Qed.

Lemma dropEmptyTail_all_empty (n : nat) :
  forall ls, List.length ls = n -> (forall l, In l ls -> l = "") ->
             dropEmptyTail n ls = [].
Proof.
  induction n as [|n IH]; intros ls Hn Hall; cbn [dropEmptyTail].
  - destruct ls; [reflexivity | discriminate].
  - assert (Hx : nth n ls "" = "").
    { apply Hall, nth_In. lia. }
    rewrite Hx. cbn [String.eqb negb]. apply IH.
    + rewrite length_firstn. lia.
    + intros l Hin. apply Hall. revert Hin. apply In_firstn.
Qed.

Lemma lastByte_app (a b : string) : b <> "" -> lastByte (a ++ b) = lastByte b.
Proof.
  intros Hb. induction a as [|c a IH]; [reflexivity|].
  cbn [append lastByte]. rewrite IH.
  destruct (a ++ b) eqn:E; [|reflexivity].
  destruct a; cbn in E; [congruence | discriminate].
Qed.

Lemma lastByte_None (s : string) : lastByte s = None -> s = "".
Proof.
  induction s as [|c t IH]; [reflexivity|].
  cbn [lastByte]. destruct t; [discriminate|]. intros Hx.
  discriminate (IH Hx).
Qed.

Lemma Join_lastByte (sep : string) (ls : list string) :
  last ls "" <> "" ->
  lastByte (strings.Join ls sep) = lastByte (last ls "").
Proof.
  induction ls as [|e r IH]; intros Hl; [reflexivity|].
  destruct r as [|e' r']; [reflexivity|].
  change (last (e :: e' :: r') "") with (last (e' :: r') "") in *.
  change (strings.Join (e :: e' :: r') sep)
    with (e ++ sep ++ strings.Join (e' :: r') sep).
  assert (Hj : strings.Join (e' :: r') sep <> "").
  { intros Hx. specialize (IH Hl). rewrite Hx in IH. cbn [lastByte] in IH.
    symmetry in IH. apply lastByte_None in IH. contradiction. }
  rewrite lastByte_app.
  - rewrite lastByte_app by exact Hj. apply IH, Hl.
  - destruct sep; [exact Hj | discriminate].
Qed.

Lemma lastByte_rev (s : string) :
  lastByte (strings.rev s)
  = match s with "" => None | String c _ => Some c end.
Proof.
  destruct s as [|c t]; [reflexivity|].
  cbn [strings.rev]. now rewrite lastByte_app by discriminate.
Qed.

(** What is left after the trailing white space has been removed does not
    end in an ASCII white space character. *)
Lemma trimLeftSpaceRev_head (n : nat) :
  forall y c z, (String.length y <= n)%nat ->
    strings.trimLeftSpaceRev y = String c z -> strings.asciiSpace c = false.
Proof.
  induction n as [|n IH]; intros y c z Hn Hx.
  - destruct y; [discriminate | cbn in Hn; lia].
  - destruct y as [|c0 t]; [discriminate|].
    cbn [strings.trimLeftSpaceRev] in Hx. cbn [String.length] in Hn.
    destruct (strings.asciiSpace c0) eqn:H0.
    + apply (IH t c z); [lia | exact Hx].
    + destruct t as [|c1 t1]; [now inversion Hx; subst|].
      cbn [String.length] in Hn.
      destruct (strings.space2 c1 c0).
      * apply (IH t1 c z); [lia | exact Hx].
      * destruct t1 as [|c2 t2]; [now inversion Hx; subst|].
        cbn [String.length] in Hn.
        destruct (strings.space3 c2 c1 c0).
        -- apply (IH t2 c z); [lia | exact Hx].
        -- now inversion Hx; subst.
Qed.

Lemma TrimSpace_lastByte (s : string) (c : ascii) :
  lastByte (strings.TrimSpace s) = Some c -> strings.asciiSpace c = false.
Proof.
  unfold strings.TrimSpace. rewrite lastByte_rev.
  destruct (strings.trimLeftSpaceRev (strings.rev (strings.trimLeftSpace s)))
    as [|c0 z] eqn:E; [discriminate|].
  intros Hx. inversion Hx; subst.
  eapply trimLeftSpaceRev_head; [apply le_n | exact E].
Qed.

Lemma CutPrefix_bar (s : string) :
  strings.CutPrefix s "|"
  = match s with
    | "" => ("", false)
    | String b s' => if Ascii.eqb "|" b then (s', true) else (s, false)
    end.
Proof. destruct s as [|b s']; reflexivity. Qed.

Lemma formatLine_lastByte (line : string) (c : ascii) :
  lastByte (formatLine line) = Some c -> c <> LF.
Proof.
  unfold formatLine. rewrite CutPrefix_bar.
  pose proof (TrimSpace_lastByte line) as Ht.
  destruct (strings.TrimSpace line) as [|b s']; [discriminate|].
  destruct (Ascii.eqb "|" b); cbn [fst snd].
  - cbn [append lastByte]. destruct s' as [|b' s''].
    + intros Hx. inversion Hx. discriminate.
    + intros Hx. specialize (Ht c Hx). intros ->. discriminate Ht.
  - intros Hx. specialize (Ht c Hx). intros ->. discriminate Ht.
Qed.

Lemma last_In (ls : list string) : ls <> [] -> In (last ls "") ls.
Proof.
  induction ls as [|x r IH]; [congruence|]. intros _.
  destruct r as [|y r']; [left; reflexivity|].
  right. apply IH. discriminate.
Qed.

Lemma last_cons (x : string) (ls : list string) :
  ls <> [] -> last (x :: ls) "" = last ls "".
Proof. destruct ls; [congruence | reflexivity]. Qed.

Lemma lastByte_cons (c : ascii) (t : string) :
  t <> "" -> lastByte (String c t) = lastByte t.
Proof. destruct t; [congruence | reflexivity]. Qed.

(** A text whose last line is empty is empty or ends in a line feed. *)
Lemma linesOf_last_empty (s : string) :
  last (linesOf s) "" = "" -> s = "" \/ lastByte s = Some LF.
Proof.
  induction s as [|c t IH]; [left; reflexivity|]. intros Hl. right.
  pose proof (linesOf_nonempty t) as Hne. cbn [linesOf] in Hl.
  destruct (Ascii.eqb_spec c LF) as [->|Hc].
  - rewrite (last_cons _ _ Hne) in Hl.
    destruct (IH Hl) as [->|Ht]; [reflexivity|].
    rewrite lastByte_cons; [exact Ht | intros ->; discriminate].
  - destruct (linesOf t) as [|l ls'] eqn:El; [congruence|].
    cbn [strings.consHead] in Hl.
    destruct ls' as [|l' ls'']; [discriminate|].
    rewrite last_cons in Hl by discriminate.
    destruct (IH Hl) as [->|Ht]; [discriminate|].
    rewrite lastByte_cons; [exact Ht | intros ->; discriminate].
Qed.

(** X16.  [FormatHelp] removes the empty lines at the end: its result
    never ends in a line feed.  The result is the empty string, or its last
    line is not empty. *)
Theorem FormatHelp_no_trailing_line (help : string) :
  lastByte (FormatHelp help) <> Some LF /\
  (FormatHelp help = "" \/ last (linesOf (FormatHelp help)) "" <> "").
Proof.
  rewrite FormatHelp_eq.
  set (ls := map formatLine (linesOf help)).
  destruct (dropEmptyTail_last (List.length ls) ls eq_refl) as [Hd|Hd].
  - rewrite Hd. split; [discriminate | left; reflexivity].
  - assert (Hlast : lastByte (strings.Join (dropEmptyTail (List.length ls) ls) nl)
                    <> Some LF).
    { rewrite (Join_lastByte nl _ Hd). intros Hx.
      assert (Hin : In (last (dropEmptyTail (List.length ls) ls) "") ls).
      { destruct (dropEmptyTail_prefix (List.length ls) ls) as [k Hk].
        assert (Hne : dropEmptyTail (List.length ls) ls <> [])
          by (intros E; rewrite E in Hd; now apply Hd).
        apply last_In in Hne. rewrite Hk in Hne at 2.
        revert Hne. apply In_firstn. }
      apply in_map_iff in Hin as (x & Hfx & _). rewrite <- Hfx in Hx.
      now apply formatLine_lastByte in Hx. }
    split; [exact Hlast|].
    destruct (string_dec (strings.Join (dropEmptyTail (List.length ls) ls) nl) "")
      as [He|He]; [left; exact He | right].
    intros Hempty. destruct (linesOf_last_empty _ Hempty); contradiction.
Qed.

(** X17.  [FormatHelp] leaves a formatted text as it is: if no line of the
    text changes under [TrimSpace], no line starts with the bar, and the
    last line is not empty, then the result is the text itself. *)
Theorem FormatHelp_formatted (help : string) :
  (forall l, In l (linesOf help) ->
             strings.TrimSpace l = l /\ startsWith "|" l = false) ->
  last (linesOf help) "" <> "" ->
  FormatHelp help = help.
Proof.
  intros Hlines Hlast. rewrite FormatHelp_eq.
  assert (Hm : map formatLine (linesOf help) = linesOf help).
  { rewrite <- (map_id (linesOf help)) at 2. apply map_ext_in.
    intros l Hin. destruct (Hlines l Hin) as [Ht Hb].
    unfold formatLine. rewrite Ht, CutPrefix_bar.
    destruct l as [|b s']; [reflexivity|].
    cbn [startsWith] in Hb. rewrite Ascii.eqb_sym, Hb. reflexivity. }
  rewrite Hm, (dropEmptyTail_id _ Hlast). apply Join_linesOf.
Qed.

Lemma FormatHelp_formatted_witness :
  FormatHelp ("Verwendung: cmd [OPTS]" ++ nl ++ nl ++ "Optionen:")
  = "Verwendung: cmd [OPTS]" ++ nl ++ nl ++ "Optionen:".
Proof.
  apply FormatHelp_formatted.
  - intros l [<-|[<-|[<-|[]]]]; split; reflexivity.
  - discriminate.
Defined.

Lemma allSpace_trimLeftSpace (s : string) :
  allSpace s = true -> strings.trimLeftSpace s = "".
Proof.
  induction s as [|c t IH]; [reflexivity|]. cbn [allSpace].
  intros Hs. apply andb_prop in Hs as [Hc Ht].
  cbn [strings.trimLeftSpace]. rewrite Hc. exact (IH Ht).
Qed.

Lemma allSpace_linesOf (s : string) :
  allSpace s = true -> forall l, In l (linesOf s) -> allSpace l = true.
Proof.
  induction s as [|c t IH]; cbn [allSpace linesOf].
  - intros _ l [<-|[]]. reflexivity.
  - intros Hs. apply andb_prop in Hs as [Hc Ht]. specialize (IH Ht).
    destruct (Ascii.eqb c LF).
    + intros l [<-|Hin]; [reflexivity | now apply IH].
    + pose proof (linesOf_nonempty t) as Hne.
      destruct (linesOf t) as [|l0 ls]; [congruence|].
      cbn [strings.consHead]. intros l [<-|Hin].
      * cbn [allSpace]. rewrite Hc. apply IH. left. reflexivity.
      * apply IH. right. exact Hin.
Qed.

(** X18.  [FormatHelp] makes the empty string of a text that consists of
    white space only (blanks, tabs, line feeds and the like), the empty
    text included. *)
Theorem FormatHelp_blank (help : string) :
  allSpace help = true -> FormatHelp help = "".
Proof.
  intros Hs. rewrite FormatHelp_eq.
  rewrite dropEmptyTail_all_empty; [reflexivity | reflexivity |].
  intros l Hin. apply in_map_iff in Hin as (x & <- & Hx).
  pose proof (allSpace_linesOf help Hs x Hx) as Hsx.
  unfold formatLine, strings.TrimSpace.
  rewrite (allSpace_trimLeftSpace x Hsx). reflexivity.
Qed.

Lemma FormatHelp_blank_witness :
  FormatHelp ("  " ++ nl ++ TAB ++ nl ++ " ") = "".
Proof. apply FormatHelp_blank. reflexivity. Defined.

(** ** The program name *)

Lemma afterLast_no_more (c : ascii) (s : string) :
  match path.afterLast c s with
  | Some r => occurs c r = false
  | None => occurs c s = false
  end.
Proof.
  induction s as [|a t IH]; [reflexivity|]. cbn [path.afterLast].
  destruct (path.afterLast c t) as [r|]; [exact IH|].
  destruct (Ascii.eqb a c) eqn:Ha; [exact IH|].
  cbn [occurs]. now rewrite Ha.
Qed.

Lemma Base_element (p : string) :
  path.Base p <> "" /\ (occurs "/" (path.Base p) = false \/ path.Base p = "/").
Proof.
  unfold path.Base. destruct p as [|a t]; [split; [discriminate | left; reflexivity]|].
  set (q := strings.rev (strings.TrimLeft (strings.rev (String a t)) "/")).
  pose proof (afterLast_no_more "/" q) as Hq.
  destruct (path.afterLast "/" q) as [r|].
  - destruct r; [split; [discriminate | right; reflexivity]|].
    split; [discriminate | left; exact Hq].
  - destruct q; [split; [discriminate | right; reflexivity]|].
    split; [discriminate | left; exact Hq].
Qed.

(** X19.  After the start of [ParseArgs] on an argument vector that is not
    empty, [Program] is not empty: a name that was set is kept, and an
    empty name becomes the last element of the first argument, which has no
    slash in it unless it is the root [/]; the first argument is not among
    the tokens. *)
Theorem Program_after_start {U : Type} (a0 : string) (r : list string)
        (w : World U) :
  fst (parseInit (a0 :: r) w) = r /\
  Program (snd (parseInit (a0 :: r) w)) <> "" /\
  (Program w <> "" -> snd (parseInit (a0 :: r) w) = w) /\
  (Program w = "" ->
   Program (snd (parseInit (a0 :: r) w)) = path.Base a0 /\
   (occurs "/" (path.Base a0) = false \/ path.Base a0 = "/")).
Proof.
  cbn [parseInit fst snd]. split; [reflexivity|].
  destruct (Base_element a0) as [Hne Hel].
  destruct (String.eqb_spec (Program w) "") as [He|He].
  - split; [exact Hne|]. split; [congruence|]. intros _. split; [reflexivity | exact Hel].
  - split; [exact He|]. split; [reflexivity | congruence].
Qed.

(** ** Instances of the further properties *)

Lemma ParseArgs_terminates_witness :
  (List.length (rest (mkParser ["cmd"] 0 false "verbose" "" 0 true None))
   < List.length (rest (newParser ["-v"; "cmd"])))%nat /\
  parseLoop Tests.handlers 5 Tests.fn (newParser ["-v"; "cmd"])
            (Tests.world "cmdline")
  = parseLoop Tests.handlers 2 Tests.fn (newParser ["-v"; "cmd"])
              (Tests.world "cmdline").
Proof.
  destruct (ParseArgs_terminates Tests.handlers) as (_ & Hstep & Hfuel).
  split.
  - apply (Hstep Tests.fn (newParser ["-v"; "cmd"]) (Tests.world "cmdline")
                 (mkParser ["cmd"] 0 false "verbose" "" 0 true None)
                 (set_user (Tests.set_verbose true Tests.noOpts)
                           (Tests.world "cmdline")));
      [discriminate | reflexivity].
  - apply (Hfuel Tests.fn (newParser ["-v"; "cmd"]) (Tests.world "cmdline") 5%nat).
    cbn. lia.
Defined.

Lemma callback_keeps_witness :
  exists k, rest (mkParser ["cmd"] 0 false "file" "file.txt" 0 true None)
            = skipn k ["file.txt"; "cmd"].
Proof.
  apply (callback_keeps Tests.handlers Tests.fn
           (mkParser ["file.txt"; "cmd"] 0 false "f" "" 0 false None)
           (Tests.world "cmdline")
           (mkParser ["cmd"] 0 false "file" "file.txt" 0 true None)
           (set_user (Tests.set_file "file.txt" Tests.noOpts)
                     (Tests.world "cmdline"))).
  reflexivity.
Defined.

Lemma only_positional_mode_lasts_witness :
  classify Tests.handlers
           (mkParser ["--help"] 1 true "" "cmd" 0 true None)
           (set_user (Tests.set_cmd "cmd" Tests.noOpts) (Tests.world "cmdline"))
  = Ok (Continue, mkParser [] 1 true "" "--help" 0 true None)
       (set_user (Tests.set_cmd "cmd" Tests.noOpts) (Tests.world "cmdline")).
Proof.
  apply (only_positional_mode_lasts Tests.handlers Tests.fn
           (mkParser ["cmd"; "--help"] 0 true "" "" 0 false None)
           (Tests.world "cmdline")
           (mkParser ["--help"] 1 true "" "cmd" 0 true None)
           (set_user (Tests.set_cmd "cmd" Tests.noOpts) (Tests.world "cmdline"))
           "--help" []).
  - reflexivity.
  - eapply reaches_next; [discriminate | reflexivity | apply reaches_here].
  - reflexivity.
Defined.

Lemma trailing_marker_returns_nil_witness :
  ParseArgs Tests.handlers ["cmdline"; "-v"; "--"] Tests.fn
            (Tests.world "cmdline")
  = Some (Ok None (set_user (Tests.set_verbose true Tests.noOpts)
                            (Tests.world "cmdline"))).
Proof.
  refine (proj2
    (trailing_marker_returns_nil Tests.handlers Tests.fn
       ["cmdline"; "-v"; "--"] (Tests.world "cmdline")
       (mkParser ["--"] 0 false "verbose" "" 0 true None)
       (set_user (Tests.set_verbose true Tests.noOpts) (Tests.world "cmdline"))
       _ eq_refl eq_refl)).
  eapply reaches_next; [discriminate | reflexivity | apply reaches_here].
Defined.

Lemma recorded_error_stops_witness :
  ParseArgs Tests.handlers ["cmdline"; "--verbose=file1"; "cmd"] Tests.fn
            (Tests.world "cmdline")
  = Some (Ok (Some "Option erlaubt kein Options-Argument: --verbose")
             (Tests.world "cmdline")).
Proof.
  refine (proj2
    (recorded_error_stops Tests.handlers Tests.fn
       ["cmdline"; "--verbose=file1"; "cmd"] (Tests.world "cmdline")
       (newParser ["--verbose=file1"; "cmd"]) (Tests.world "cmdline")
       (mkParser ["cmd"] 0 false "verbose" "file1" 0 false None)
       (Tests.world "cmdline")
       (mkParser ["cmd"] 0 false "verbose" "file1" 0 false
                 (Some "Option erlaubt kein Options-Argument: --verbose"))
       (Tests.world "cmdline")
       "Option erlaubt kein Options-Argument: --verbose"
       _ _ eq_refl eq_refl eq_refl)).
  - apply reaches_here.
  - discriminate.
Defined.

Lemma returned_error_is_recorded_witness :
  Some "Unbekannte Option: --x"
  = err (mkParser [] 0 false "x" "" 0 false (Some "Unbekannte Option: --x")).
Proof.
  apply (proj1 (returned_error_is_recorded Tests.handlers) Tests.fn
               ["cmdline"; "--x"] (Tests.world "cmdline") 1%nat
               (Some "Unbekannte Option: --x")
               (mkParser [] 0 false "x" "" 0 false
                         (Some "Unbekannte Option: --x"))
               (Tests.world "cmdline")).
  reflexivity.
Defined.

Lemma exiting_ErrorFunc_returns_nil_witness :
  ParseArgs defaultHandlers ["cmdline"; "-v"] Tests.fn (Tests.world "cmdline")
  = Some (Ok None (set_user (Tests.set_verbose true Tests.noOpts)
                            (Tests.world "cmdline"))) /\
  @None string = None.
Proof.
  split; [reflexivity|].
  apply (exiting_ErrorFunc_returns_nil defaultHandlers Tests.fn
           ["cmdline"; "-v"] (Tests.world "cmdline") None
           (set_user (Tests.set_verbose true Tests.noOpts)
                     (Tests.world "cmdline"))).
  - intros format a w0. destruct (SyntaxError_exits format a w0) as (w1 & Hx & _).
    exists 1, w1. exact Hx.
  - reflexivity.
Defined.

Lemma argIdx_within_parse_witness :
  0 <= 1 /\ 1 + Z.of_nat (List.length ["arg0"]) <= Z.of_nat 2 /\
  (["arg0"] <> [] -> int_incr 1 = 1 + 1).
Proof.
  refine (argIdx_within_parse Tests.handlers Tests.fn
            ["cmdline"; "cmd"; "arg0"] (Tests.world "cmdline")
            (mkParser ["arg0"] 1 false "" "cmd" 0 true None)
            (set_user (Tests.set_cmd "cmd" Tests.noOpts) (Tests.world "cmdline"))
            _ _).
  - eapply reaches_next; [discriminate | reflexivity | apply reaches_here].
  - unfold MaxInt. cbn. lia.
Defined.

Lemma IntVal_after_IsIntOpt_witness :
  0 <= 2 <= 3 /\ decimalInt "2" 2 /\ true = true /\ "level" = "level".
Proof.
  apply (proj1 (IntVal_after_IsIntOpt Tests.handlers "level" "l" 0 3
                  (mkParser [] 0 false "l" "2" 0 false None)
                  (Tests.world "cmdline") true
                  (mkParser [] 0 false "level" "2" 2 true None)
                  (Tests.world "cmdline") eq_refl) eq_refl).
Defined.

Lemma IsArg_after_classify_witness :
  exists p0,
    classify Tests.handlers (newParser ["-x"; "cmd"]) (Tests.world "cmdline")
    = Ok (Continue, p0) (Tests.world "cmdline") /\
    rest p0 = ["cmd"] /\
    IsArg (set_grabbed false p0) (Tests.world "cmdline")
    = Ok (false, set_grabbed false p0) (Tests.world "cmdline").
Proof.
  apply (IsArg_after_classify Tests.handlers (newParser ["-x"; "cmd"])
           (Tests.world "cmdline") "-x" ["cmd"]);
    [reflexivity | reflexivity | discriminate | discriminate].
Defined.

Lemma empty_short_name_matches_positional_witness :
  exists p0,
    classify Tests.handlers (newParser ["cmd"]) (Tests.world "cmdline")
    = Ok (Continue, p0) (Tests.world "cmdline") /\
    opt p0 = "" /\ strVal p0 = "cmd" /\
    IsStrOpt Tests.handlers "file" "" (set_grabbed false p0)
             (Tests.world "cmdline")
    = Ok (true, set_grabbed true (set_opt "file" p0)) (Tests.world "cmdline") /\
    IsOpt Tests.handlers "file" "" (set_grabbed false p0) (Tests.world "cmdline")
    = raises Tests.handlers "Option erlaubt kein Options-Argument: --%s"
             [Str "file"] "Option erlaubt kein Options-Argument: --file"
             (set_opt "file" (set_grabbed false p0)) (Tests.world "cmdline").
Proof.
  apply (empty_short_name_matches_positional Tests.handlers "file"
           (newParser ["cmd"]) (Tests.world "cmdline") "cmd" []);
    [reflexivity | discriminate | reflexivity].
Defined.

Lemma message_rendering_witness :
  rendered DontFormat (Program (Tests.world "prog")) "hello"
  = DontFormat (Program (Tests.world "prog") ++ ": " ++ "hello" ++ nl) ++ nl.
Proof.
  apply (proj2 (proj2 (proj2
           (message_rendering Stderr DontFormat "hello" []
                              (Tests.world "prog"))))).
  reflexivity.
Defined.

Lemma Program_after_start_witness :
  Program (snd (parseInit ["/usr/bin/cmdline"; "-v"] (Tests.world "")))
  = path.Base "/usr/bin/cmdline" /\
  snd (parseInit ["/usr/bin/cmdline"; "-v"] (Tests.world "prog"))
  = Tests.world "prog".
Proof.
  split.
  - apply (proj1 (proj2 (proj2 (proj2
             (Program_after_start "/usr/bin/cmdline" ["-v"] (Tests.world "")))) eq_refl)).
  - apply (proj1 (proj2 (proj2
             (Program_after_start "/usr/bin/cmdline" ["-v"] (Tests.world "prog"))))).
    discriminate.
Defined.
